(** * Mana costs: a model of [magic/mana.py] and its properties

    The module parses mana-cost strings such as [{2}{W/U}{X}] into symbol
    tokens, classifies the tokens with regular expressions, computes the
    converted mana cost and the colours of a cost, and orders colour
    symbols around the colour wheel.

    Conventions of the model.
    - A Python [str] is a [string]; its characters are [ascii].  A
      one-character [str] (the loop variable [c] of [parse]) is a [string]
      of length one.
    - A Python [int] is a [Z].  A [float] is an IEEE 754 binary64 number,
      a [spec_float] of the Standard Library with its rounding to nearest.
    - A call that may raise returns a [result]: [Ok v] or [Raise e].
    - A [set] of [str] is a [gset string]. *)

From Stdlib Require Import ZArith QArith String Ascii List Permutation Lia.
From Stdlib Require Import SpecFloat Qpower Qfield.
From stdpp Require Import base gmap strings list.
Import ListNotations.
Open Scope string_scope.
Open Scope list_scope.

(** ** Exceptions *)

Inductive exn : Type :=
| InvalidManaCostException   (* subclass of shared.pd_exception.ParseException *)
| ValueError
| IndexError
| OverflowError.

Inductive result (A : Type) : Type :=
| Ok (a : A)
| Raise (e : exn).
Arguments Ok {A} a.
Arguments Raise {A} e.

#[global] Instance result_ret : MRet result := fun A a => Ok a.

#[global] Instance result_bind : MBind result := fun A B k m =>
  match m with
  | Ok a => k a
  | Raise e => Raise e
  end.

(** A [for] loop whose body may raise: the first exception ends the loop. *)
Fixpoint for_each {S A : Type} (body : S -> A -> result S) (xs : list A) (st : S)
  : result S :=
  match xs with
  | [] => Ok st
  | x :: xs' => st' ← body st x; for_each body xs' st'
  end.

(** ** Floats *)

Module float.

(** Binary64: 53 bits of precision, exponents below 1024. *)
Definition prec : Z := 53.
Definition emax : Z := 1024.

(** The float nearest to [m * 2^e], ties to even; [inf] beyond the range. *)
Definition nearest (m e : Z) : spec_float := binary_normalize prec emax m e false.

(** [x + y]: the exact sum rounded to nearest; a sum beyond the range is
    [inf], without an exception. *)
Definition add (x y : spec_float) : spec_float := SFadd prec emax x y.

(** The conversion of an [int] operand of [+]: the nearest float, or
    [OverflowError] (int too large to convert to float). *)
Definition of_int (n : Z) : result spec_float :=
  match nearest n 0 with
  | S754_infinity _ => Raise OverflowError
  | x => Ok x
  end.

(** The literals [0.0], [0.5], [1.0] and [2.0]. *)
Definition zero : spec_float := S754_zero false.
Definition half : spec_float := Eval vm_compute in nearest 1 (-1).
Definition one : spec_float := Eval vm_compute in nearest 1 0.
Definition two : spec_float := Eval vm_compute in nearest 2 0.

(** The number a float stands for; [inf] and [nan] stand for none. *)
Definition value (x : spec_float) : option Q :=
  match x with
  | S754_zero _ => Some 0%Q
  | S754_finite s m e =>
      Some ((if s then inject_Z (Zneg m) else inject_Z (Zpos m)) * Qpower 2 e)%Q
  | S754_infinity _ | S754_nan => None
  end.


(** Zero, a positive number or [inf]: not negative, and not [nan]. *)
Definition nonnegative (x : spec_float) : Prop :=
  match x with
  | S754_zero false | S754_finite false _ _ | S754_infinity false => True
  | _ => False
  end.


End float.

(** ** Strings *)

Module str.

(** [list(s)]: the characters of [s], each a string of length one. *)
Fixpoint chars (s : string) : list string :=
  match s with
  | EmptyString => []
  | String a s' => String a EmptyString :: chars s'
  end.

(** [s.replace(old, new)] for a one-character [old]. *)
Fixpoint replace (old : ascii) (new : string) (s : string) : string :=
  match s with
  | EmptyString => EmptyString
  | String a s' =>
      if Ascii.eqb a old then new +:+ replace old new s'
      else String a (replace old new s')
  end.

(** [sep.join(parts)]. *)
Definition join (sep : string) (parts : list string) : string :=
  String.concat sep parts.

(** [s.split(sep)] for a one-character [sep]: the fields between the
    separators; always at least one field. *)
Fixpoint split (sep : ascii) (s : string) : list string :=
  match s with
  | EmptyString => [EmptyString]
  | String a s' =>
      if Ascii.eqb a sep then EmptyString :: split sep s'
      else match split sep s' with
           | [] => [String a EmptyString]
           | field :: fields => String a field :: fields
           end
  end.

(** [s[0]]. *)
Definition first (s : string) : result string :=
  match s with
  | EmptyString => Raise IndexError
  | String a _ => Ok (String a EmptyString)
  end.

(** Truth value of a string: non-empty. *)
Definition truthy (s : string) : bool :=
  match s with
  | EmptyString => false
  | String _ _ => true
  end.

(** White space among the first 256 code points (as [str.isspace]). *)
Definition is_space (a : ascii) : bool :=
  existsb (Ascii.eqb a)
    ["009"; "010"; "011"; "012"; "013"; "028"; "029"; "030"; "031"; " ";
     "133"; "160"]%char.

Definition is_digit (a : ascii) : bool :=
  (N.leb (N_of_ascii "0") (N_of_ascii a) && N.leb (N_of_ascii a) (N_of_ascii "9"))%bool.

Fixpoint lstrip (s : string) : string :=
  match s with
  | String a s' => if is_space a then lstrip s' else s
  | EmptyString => EmptyString
  end.

Fixpoint rstrip (s : string) : string :=
  match s with
  | EmptyString => EmptyString
  | String a s' =>
      match rstrip s' with
      | EmptyString => if is_space a then EmptyString else String a EmptyString
      | rest => String a rest
      end
  end.

Definition strip (s : string) : string := rstrip (lstrip s).

(** Value of a run of decimal digits read left to right; [None] at the
    first character that is not a digit. *)
Fixpoint digits_value (acc : Z) (s : string) : option Z :=
  match s with
  | EmptyString => Some acc
  | String a s' =>
      if is_digit a
      then digits_value (10 * acc + Z.of_N (N_of_ascii a - N_of_ascii "0")) s'
      else None
  end.

(** [int(s)] on unsigned decimal literals, surrounding white space allowed
    as in Python.  (Signs and digit-group underscores, which [int] accepts
    as well, are not modelled: [cmc] calls [int] on generic symbols only.
    The literal may be of any length: the limit on the number of digits
    that recent interpreters can be set to is not part of the model.) *)
Definition int (s : string) : result Z :=
  match strip s with
  | EmptyString => Raise ValueError
  | String _ _ as t =>
      match digits_value 0 t with
      | Some n => Ok n
      | None => Raise ValueError
      end
  end.

End str.

(** ** Lists *)

Module pylist.

(** [l.index(x)]: position of the first element equal to [x]. *)
Fixpoint index {A : Type} `{EqDecision A} (l : list A) (x : A) : result Z :=
  match l with
  | [] => Raise ValueError
  | y :: l' =>
      if decide (y = x) then Ok 0%Z
      else i ← index l' x; Ok (i + 1)%Z
  end.

(** [l[i]] for a natural [i]. *)
Definition item {A : Type} (l : list A) (i : nat) : result A :=
  match nth_error l i with
  | Some x => Ok x
  | None => Raise IndexError
  end.

(** [len(l)]. *)
Definition len {A : Type} (l : list A) : Z := Z.of_nat (length l).

(** [enumerate(l, start)]. *)
Fixpoint enumerate {A : Type} (l : list A) (start : Z) : list (Z * A) :=
  match l with
  | [] => []
  | x :: l' => (start, x) :: enumerate l' (start + 1)%Z
  end.

End pylist.

(** ** Regular expressions (the fragment of [re] the module uses) *)

Module re.

Inductive charset : Type :=
| Range (lo hi : ascii)        (* [lo-hi] *)
| AnyOf (members : string).    (* [abc] *)

Inductive regex : Type :=
| Void
| Eps
| Chr (c : ascii)
| Class (cs : charset)
| Seq (r1 r2 : regex)
| Alt (r1 r2 : regex)
| Star (r : regex).

(** [r?] and [r+]. *)
Definition Opt (r : regex) : regex := Alt r Eps.
Definition Plus (r : regex) : regex := Seq r (Star r).

Definition in_class (a : ascii) (cs : charset) : bool :=
  match cs with
  | Range lo hi =>
      (N.leb (N_of_ascii lo) (N_of_ascii a) && N.leb (N_of_ascii a) (N_of_ascii hi))%bool
  | AnyOf members => existsb (Ascii.eqb a) (list_ascii_of_string members)
  end.

Fixpoint nullable (r : regex) : bool :=
  match r with
  | Void => false
  | Eps => true
  | Chr _ => false
  | Class _ => false
  | Seq r1 r2 => (nullable r1 && nullable r2)%bool
  | Alt r1 r2 => (nullable r1 || nullable r2)%bool
  | Star _ => true
  end.

(** The expression for what may follow a leading [a]. *)
Fixpoint deriv (a : ascii) (r : regex) : regex :=
  match r with
  | Void => Void
  | Eps => Void
  | Chr c => if Ascii.eqb a c then Eps else Void
  | Class cs => if in_class a cs then Eps else Void
  | Seq r1 r2 =>
      if nullable r1 then Alt (Seq (deriv a r1) r2) (deriv a r2)
      else Seq (deriv a r1) r2
  | Alt r1 r2 => Alt (deriv a r1) (deriv a r2)
  | Star r1 => Seq (deriv a r1) (Star r1)
  end.

(** The whole of [s] is a word of [r]. *)
Fixpoint fullmatch (r : regex) (s : string) : bool :=
  match s with
  | EmptyString => nullable r
  | String a s' => fullmatch (deriv a r) s'
  end.

(** Some prefix of [s] is a word of [r]. *)
Fixpoint prefixmatch (r : regex) (s : string) : bool :=
  (nullable r ||
   match s with
   | EmptyString => false
   | String a s' => prefixmatch (deriv a r) s'
   end)%bool.

(** [s] without its last character, when that is a line feed. *)
Fixpoint chop_newline (s : string) : option string :=
  match s with
  | EmptyString => None
  | String a EmptyString => if Ascii.eqb a "010" then Some EmptyString else None
  | String a s' => option_map (String a) (chop_newline s')
  end.

(** A pattern as the module writes it: bare ([body]) or anchored
    ([^body$]). *)
Inductive pattern : Type :=
| Bare (body : regex)
| Anchored (body : regex).

(** [bool(re.match(pattern, s))].  [re.match] looks for a match at the
    start of [s].  Without [re.MULTILINE], [$] holds at the end of the
    string and just before a line feed that ends the string. *)
Definition match_ (p : pattern) (s : string) : bool :=
  match p with
  | Bare body => prefixmatch body s
  | Anchored body =>
      (fullmatch body s ||
       match chop_newline s with
       | Some s' => fullmatch body s'
       | None => false
       end)%bool
  end.

(** The words of an expression. *)
Inductive lang : regex -> string -> Prop :=
| lang_eps : lang Eps EmptyString
| lang_chr c : lang (Chr c) (String c EmptyString)
| lang_class cs a : in_class a cs = true -> lang (Class cs) (String a EmptyString)
| lang_seq r1 r2 s1 s2 : lang r1 s1 -> lang r2 s2 -> lang (Seq r1 r2) (s1 +:+ s2)
| lang_alt_l r1 r2 s : lang r1 s -> lang (Alt r1 r2) s
| lang_alt_r r1 r2 s : lang r2 s -> lang (Alt r1 r2) s
| lang_star_nil r : lang (Star r) EmptyString
| lang_star_more r s1 s2 : lang r s1 -> lang (Star r) s2 -> lang (Star r) (s1 +:+ s2).

End re.

(** ** [itertools] and [sorted] *)

Module itertools.

(** Every way to take one element out of a pool, by position: the
    element and the pool without it. *)
Fixpoint selects {A : Type} (pool : list A) : list (A * list A) :=
  match pool with
  | [] => []
  | x :: pool' =>
      (x, pool') :: map (fun '(y, rest) => (y, x :: rest)) (selects pool')
  end.

Fixpoint permutations_of_length {A : Type} (n : nat) (pool : list A) : list (list A) :=
  match n with
  | O => [[]]
  | S n' =>
      flat_map (fun '(x, rest) => map (cons x) (permutations_of_length n' rest))
               (selects pool)
  end.

(** [itertools.permutations(pool)]: all orderings of the pool, elements
    told apart by position, emitted in lexicographic order of positions. *)
Definition permutations {A : Type} (pool : list A) : list (list A) :=
  permutations_of_length (length pool) pool.

End itertools.

Module builtins.

Fixpoint insert_by {A : Type} (key : A -> Z) (x : A) (l : list A) : list A :=
  match l with
  | [] => [x]
  | y :: l' => if (key x <=? key y)%Z then x :: l else y :: insert_by key x l'
  end.

(** [sorted(l, key=...)] once the keys are known.  Python's sort is
    stable, and a stable sort has one possible result; insertion from
    the right computes it. *)
Definition stable_sort {A : Type} (key : A -> Z) (l : list A) : list A :=
  fold_right (insert_by key) [] l.

(** Calls [f] on each element in turn; the first exception ends it. *)
Fixpoint map_raising {A B : Type} (f : A -> result B) (l : list A) : result (list B) :=
  match l with
  | [] => Ok []
  | x :: l' => y ← f x; ys ← map_raising f l'; Ok (y :: ys)
  end.

(** [sorted(l, key=key)]: the keys are computed first, one call per
    element. *)
Definition sorted {A : Type} (l : list A) (key : A -> result Z) : result (list A) :=
  keyed ← map_raising (fun x => k ← key x; Ok (k, x)) l;
  Ok (map snd (stable_sort fst keyed)).

End builtins.

(** ** [magic/mana.py] *)

(** The module-level constants.  Each is a string, used as a pattern,
    as a value of [mode], or both. *)
Inductive constant : Type :=
| START | DIGIT | COLOR | X | SLASH | MODIFIER | HALF | HYBRID.

Definition value (k : constant) : string :=
  match k with
  | START => ""
  | DIGIT => "[0-9]"
  | COLOR => "[WURBGCS]"
  | X => "[XYZ]"
  | SLASH => "/"
  | MODIFIER => "P"
  | HALF => "H"
  | HYBRID => "SPECIAL-HYBRID"
  end.

(** The expression each constant denotes when used as a pattern. *)
Definition compile (k : constant) : re.regex :=
  match k with
  | START => re.Eps
  | DIGIT => re.Class (re.Range "0" "9")
  | COLOR => re.Class (re.AnyOf "WURBGCS")
  | X => re.Class (re.AnyOf "XYZ")
  | SLASH => re.Chr "/"
  | MODIFIER => re.Chr "P"
  | HALF => re.Chr "H"
  | HYBRID =>
      fold_right (fun a r => re.Seq (re.Chr a) r) re.Eps
                 (list_ascii_of_string "SPECIAL-HYBRID")
  end.

(** [re.match(k, c)] as a condition. *)
Definition re_match (k : constant) (c : string) : bool :=
  re.match_ (re.Bare (compile k)) c.

(** The local variables of [parse]. *)
Record scanner : Type := Scanner {
  tmp : string;
  tokens : list string;
  mode : constant
}.

(** The body of the loop of [parse], for the character [c]. *)
Definition parse_body (st : scanner) (c : string) : result scanner :=
  let '(Scanner tmp tokens mode) := st in
  match mode with
  | START =>
      if re_match DIGIT c then Ok (Scanner (tmp +:+ c) tokens DIGIT)
      else if re_match COLOR c then Ok (Scanner (tmp +:+ c) tokens COLOR)
      else if re_match X c then Ok (Scanner "" (tokens ++ [c]) START)
      else if re_match HALF c then Ok (Scanner (tmp +:+ c) tokens HALF)
      else Raise InvalidManaCostException
  | DIGIT =>
      if re_match DIGIT c then Ok (Scanner (tmp +:+ c) tokens mode)
      else if (re_match COLOR c || re_match X c)%bool
           then Ok (Scanner c (tokens ++ [tmp]) COLOR)
      else if re_match SLASH c then Ok (Scanner (tmp +:+ c) tokens SLASH)
      else Raise InvalidManaCostException
  | COLOR =>
      if re_match COLOR c then Ok (Scanner c (tokens ++ [tmp]) COLOR)
      else if re_match SLASH c then Ok (Scanner (tmp +:+ c) tokens SLASH)
      else Raise InvalidManaCostException
  | SLASH =>
      if re_match MODIFIER c then Ok (Scanner "" (tokens ++ [tmp +:+ c]) START)
      else if re_match COLOR c then Ok (Scanner (tmp +:+ c) tokens HYBRID)
      else Raise InvalidManaCostException
  | HALF =>
      if re_match COLOR c then Ok (Scanner "" (tokens ++ [tmp +:+ c]) START)
      else Raise InvalidManaCostException
  | HYBRID =>
      if re_match SLASH c then Ok (Scanner (tmp +:+ c) tokens SLASH)
      else if re_match DIGIT c then Ok (Scanner c (tokens ++ [tmp]) DIGIT)
      else if re_match COLOR c then Ok (Scanner c (tokens ++ [tmp]) COLOR)
      else if re_match X c then Ok (Scanner "" ((tokens ++ [tmp]) ++ [c]) START)
      else if re_match HALF c then Ok (Scanner c (tokens ++ [tmp]) HALF)
      else Raise InvalidManaCostException
  | X | MODIFIER => Ok st   (* no arm of the if/elif chain compares [mode] to these *)
  end.

Definition parse (s : string) : result (list string) :=
  let stripped := str.replace "}" "" (str.replace "{" "" s) in
  st ← for_each parse_body (str.chars stripped) (Scanner "" [] START);
  Ok (if str.truthy (tmp st) then tokens st ++ [tmp st] else tokens st).

(** *** The classifiers *)

Definition generic (symbol : string) : bool :=
  re.match_ (re.Anchored (re.Plus (compile DIGIT))) symbol.

Definition variable (symbol : string) : bool :=
  re.match_ (re.Anchored (compile X)) symbol.

Definition phyrexian (symbol : string) : bool :=
  re.match_
    (re.Anchored
       (re.Seq (re.Opt (re.Seq (compile COLOR) (re.Chr "/")))
          (re.Seq (compile COLOR) (re.Seq (re.Chr "/") (compile MODIFIER)))))
    symbol.

Definition hybrid (symbol : string) : bool :=
  re.match_
    (re.Anchored
       (re.Seq (compile COLOR)
          (re.Seq (re.Chr "/")
             (re.Seq (compile COLOR) (re.Opt (re.Seq (re.Chr "/") (compile MODIFIER)))))))
    symbol.

Definition twobrid (symbol : string) : bool :=
  re.match_ (re.Anchored (re.Seq (re.Chr "2") (re.Seq (re.Chr "/") (compile COLOR)))) symbol.

Definition half (symbol : string) : bool :=
  re.match_ (re.Anchored (re.Seq (compile HALF) (compile COLOR))) symbol.

Definition colored (symbol : string) : bool :=
  re.match_ (re.Anchored (compile COLOR)) symbol.

(** *** Colours of a cost *)

(** The two-key dictionaries [{'required': ..., 'also': ...}]. *)
Record by_need (A : Type) : Type := ByNeed {
  required : A;
  also : A
}.
Arguments ByNeed {A} required also.
Arguments required {A} b.
Arguments also {A} b.

(** The body of the loop of [colored_symbols]. *)
Definition colored_symbols_body (cs : by_need (list string)) (symbol : string)
  : result (by_need (list string)) :=
  if (generic symbol || variable symbol)%bool then Ok cs
  else if hybrid symbol then
    let parts := str.split "/" symbol in
    part0 ← pylist.item parts 0;
    part1 ← pylist.item parts 1;
    Ok (ByNeed (required cs) ((also cs ++ [part0]) ++ [part1]))
  else if phyrexian symbol then
    first ← str.first symbol;
    Ok (ByNeed (required cs) (also cs ++ [first]))
  else if twobrid symbol then
    let parts := str.split "/" symbol in
    part1 ← pylist.item parts 1;
    Ok (ByNeed (required cs) (also cs ++ [part1]))
  else if colored symbol then
    Ok (ByNeed (required cs ++ [symbol]) (also cs))
  else Raise InvalidManaCostException.

Definition colored_symbols (symbols : list string) : result (by_need (list string)) :=
  for_each colored_symbols_body symbols (ByNeed [] []).

Definition colors_from_colored_symbols (all_colored_symbols : by_need (list string))
  : by_need (gset string) :=
  ByNeed (list_to_set (required all_colored_symbols))
         (list_to_set (also all_colored_symbols)).

Definition colors (symbols : list string) : result (by_need (gset string)) :=
  cs ← colored_symbols symbols;
  Ok (colors_from_colored_symbols cs).

(** *** Converted mana cost *)

(** The body of the loop of [cmc]; [total] is a float from the start. *)
Definition cmc_body (total : spec_float) (symbol : string) : result spec_float :=
  if generic symbol then
    n ← str.int symbol;
    x ← float.of_int n;
    Ok (float.add total x)
  else if twobrid symbol then Ok (float.add total float.two)
  else if half symbol then Ok (float.add total float.half)
  else if variable symbol then Ok (float.add total float.zero)
  else if (phyrexian symbol || hybrid symbol || colored symbol)%bool
       then Ok (float.add total float.one)
  else Raise InvalidManaCostException.

Definition cmc (mana_cost : string) : result spec_float :=
  symbols ← parse mana_cost;
  for_each cmc_body symbols float.zero.

Definition has_x (mana_cost : string) : result bool :=
  symbols ← parse mana_cost;
  Ok (0 <? length (List.filter variable symbols))%nat.

(** *** Ordering colour symbols *)

Definition wheel : list string := ["W"; "U"; "B"; "R"; "G"].

(** The body of the loop of [order_score]; the state is [(score, current)]. *)
Definition order_score_body (positions : list string) (st : Z * Z) (symbol : string)
  : result (Z * Z) :=
  let '(score, current) := st in
  position ← pylist.index positions symbol;
  let distance := (position - current)%Z in
  let distance :=
    if (position <? current)%Z then (distance + pylist.len positions)%Z else distance in
  Ok ((score + distance)%Z, position).

Definition order_score (initial_symbols : list string) : result Z :=
  let symbols := filter (fun symbol => symbol ∉ ["C"; "S"]) initial_symbols in
  match symbols with
  | [] => Ok 0%Z
  | symbol0 :: rest =>
      let positions := wheel in
      current ← pylist.index positions symbol0;
      st ← for_each (order_score_body positions) rest (0%Z, current);
      first ← pylist.index positions symbol0;
      Ok (fst st * 10 + first)%Z
  end.

Definition order (symbols : list string) : result (list string) :=
  let permutations := itertools.permutations symbols in
  ranked ← builtins.sorted permutations order_score;
  pylist.item ranked 0.

(** The priority list of [sort_score]; its first entry is [None]. *)
Definition priorities : list (option string) :=
  [None; Some "C"; Some "S"; Some "W"; Some "U"; Some "B"; Some "R"; Some "G"].

Definition sort_score_body (positions : list (option string)) (score : Z)
  (entry : Z * string) : result Z :=
  let '(i, symbol) := entry in
  position ← pylist.index positions (Some symbol);
  Ok (score + position * 10 * i)%Z.

Definition sort_score (symbols : list string) : result Z :=
  let positions := priorities in
  for_each (sort_score_body positions) (pylist.enumerate (rev symbols) 1%Z) 0%Z.

(** ** Notions used to state the properties *)

Definition LF : ascii := "010"%char.

(** The input with every brace removed. *)
Fixpoint strip_braces (s : string) : string :=
  match s with
  | EmptyString => EmptyString
  | String a s' =>
      if (Ascii.eqb a "{" || Ascii.eqb a "}")%bool then strip_braces s'
      else String a (strip_braces s')
  end.

(** A colour letter, one of [WURBGCS]. *)
Definition is_color (a : ascii) : bool := re.in_class a (re.AnyOf "WURBGCS").

(** The seven classifiers, and how many of them accept a symbol. *)
Definition classifiers : list (string -> bool) :=
  [generic; variable; phyrexian; hybrid; twobrid; half; colored].

Definition holding (symbol : string) : nat :=
  length (List.filter (fun classifier => classifier symbol) classifiers).

(** No classifier accepts the symbol. *)
Definition unrecognized (symbol : string) : Prop :=
  Forall (fun classifier => classifier symbol = false) classifiers.

(** A hybrid-Phyrexian symbol [A/B/P], as both patterns read it: a final
    line feed is let through by [$]. *)
Definition hybrid_phyrexian_shape (symbol : string) : bool :=
  match symbol with
  | String a (String s1 (String b (String s2 (String p rest)))) =>
      (is_color a && Ascii.eqb s1 "/" && is_color b && Ascii.eqb s2 "/"
       && Ascii.eqb p "P"
       && (String.eqb rest EmptyString || String.eqb rest (String LF EmptyString)))%bool
  | _ => false
  end.

(** What the first two characters of a symbol say about its kind. *)
Inductive kind : Type :=
| KGeneric | KVariable | KSlashed | KTwobrid | KHalf | KColored.

Definition second_is_slash (rest : string) : bool :=
  match rest with
  | String b _ => Ascii.eqb b "/"
  | EmptyString => false
  end.

Definition kind_of (symbol : string) : option kind :=
  match symbol with
  | EmptyString => None
  | String a rest =>
      if is_color a then Some (if second_is_slash rest then KSlashed else KColored)
      else if Ascii.eqb a "H" then Some KHalf
      else if re.in_class a (re.AnyOf "XYZ") then Some KVariable
      else if str.is_digit a then Some (if second_is_slash rest then KTwobrid else KGeneric)
      else None
  end.

(** What the scanner has read so far: the tokens emitted, then the
    accumulator. *)
Definition consumed (st : scanner) : string :=
  str.join "" (tokens st) +:+ tmp st.

(** In [START] the accumulator is empty, and [mode] is one of the six
    values the loop assigns. *)
Definition settled (st : scanner) : Prop :=
  (mode st = START -> tmp st = "") /\ mode st <> X /\ mode st <> MODIFIER.

(** The symbols [order], [order_score] and [sort_score] are meant for. *)
Definition known_symbols : list string := ["W"; "U"; "B"; "R"; "G"; "C"; "S"].

(** Position on the colour wheel: W=0, U=1, B=2, R=3, G=4. *)
Definition cycle_index (symbol : string) : Z :=
  if String.eqb symbol "W" then 0
  else if String.eqb symbol "U" then 1
  else if String.eqb symbol "B" then 2
  else if String.eqb symbol "R" then 3
  else if String.eqb symbol "G" then 4
  else 0.

(** Steps forward around the five-colour cycle. *)
Definition forward_distance (from to : Z) : Z :=
  let difference := (to - from)%Z in
  if (difference <? 0)%Z then (difference + 5)%Z else difference.

(** Sum of the forward distances of consecutive pairs. *)
Fixpoint path_length (indices : list Z) : Z :=
  match indices with
  | a :: (b :: _) as rest => (forward_distance a b + path_length rest)%Z
  | _ => 0%Z
  end.

Definition without_colorless (symbols : list string) : list string :=
  List.filter (fun symbol => negb (String.eqb symbol "C" || String.eqb symbol "S")) symbols.

(** The score of an ordering as the specification words it. *)
Definition order_score_formula (symbols : list string) : Z :=
  match without_colorless symbols with
  | [] => 0%Z
  | (first :: _) as remaining =>
      (path_length (map cycle_index remaining) * 10 + cycle_index first)%Z
  end.

(** Index in the priority list [none, C, S, W, U, B, R, G]. *)
Definition priority_index (symbol : string) : Z :=
  if String.eqb symbol "C" then 1
  else if String.eqb symbol "S" then 2
  else if String.eqb symbol "W" then 3
  else if String.eqb symbol "U" then 4
  else if String.eqb symbol "B" then 5
  else if String.eqb symbol "R" then 6
  else if String.eqb symbol "G" then 7
  else 0.

(** [sigma n f] is [f 1 + ... + f n]. *)
Definition sigma (n : nat) (f : nat -> Z) : Z :=
  fold_right Z.add 0%Z (map f (seq 1 n)).

(** The sort key as the specification words it: over the reversed
    sequence, position [i] counted from one, [index * 10 * i]. *)
Definition sort_score_formula (symbols : list string) : Z :=
  sigma (length symbols)
    (fun i => (priority_index (nth (i - 1) (rev symbols) "") * 10 * Z.of_nat i)%Z).

(** Comparing two orderings by [order_score], when both have a score. *)
Definition scores_at_most (p q : list string) : Prop :=
  exists k k', order_score p = Ok k /\ order_score q = Ok k' /\ (k <= k')%Z.

Definition scores_below (p q : list string) : Prop :=
  exists k k', order_score p = Ok k /\ order_score q = Ok k' /\ (k < k')%Z.

(** What [$] lets follow the matched text: nothing, or one line feed. *)
Definition line_end (e : string) : Prop := e = "" \/ e = String LF "".

Fixpoint all_digits (s : string) : bool :=
  match s with
  | EmptyString => true
  | String a s' => (str.is_digit a && all_digits s')%bool
  end.

(** The number written by the leading decimal digits of a symbol. *)
Fixpoint numeral_from (acc : Z) (s : string) : Z :=
  match s with
  | EmptyString => acc
  | String a s' =>
      if str.is_digit a
      then numeral_from (10 * acc + Z.of_N (N_of_ascii a - N_of_ascii "0")) s'
      else acc
  end.

Definition numeral (symbol : string) : Z := numeral_from 0 symbol.

(** What one symbol adds to the converted cost, or that it is rejected. *)
Inductive contribution : Type :=
| Adds (value : Q)
| Rejected.

(** The table of contributions, one line per kind of symbol. *)
Inductive contributes : string -> contribution -> Prop :=
| generic_adds t : generic t = true -> contributes t (Adds (inject_Z (numeral t)))
| twobrid_adds t : twobrid t = true -> contributes t (Adds 2)
| half_adds t : half t = true -> contributes t (Adds (1 # 2))
| variable_adds t : variable t = true -> contributes t (Adds 0)
| phyrexian_adds t : phyrexian t = true -> contributes t (Adds 1)
| hybrid_adds t : hybrid t = true -> contributes t (Adds 1)
| colored_adds t : colored t = true -> contributes t (Adds 1)
| other_rejected t : unrecognized t -> contributes t Rejected.








(** ** Notions used for further properties *)

(** The characters [parse] lets through. *)
Definition in_alphabet (a : ascii) : bool :=
  (str.is_digit a || is_color a || re.in_class a (re.AnyOf "XYZ")
   || Ascii.eqb a "/" || Ascii.eqb a "P" || Ascii.eqb a "H")%bool.

Fixpoint all_in_alphabet (s : string) : bool :=
  match s with
  | EmptyString => true
  | String a s' => (in_alphabet a && all_in_alphabet s')%bool
  end.

(** Outside [START] the accumulator holds something, and no token emitted
    so far is empty. *)
Definition filled (st : scanner) : Prop :=
  (mode st <> START -> tmp st <> "") /\ Forall (fun t => t <> "") (tokens st).

(** A symbol written between braces. *)
Definition braced (symbol : string) : string := "{" +:+ symbol +:+ "}".

(** What [colored_symbols] does with one symbol, starting from empty lists. *)
Definition symbol_colors (symbol : string) : result (by_need (list string)) :=
  colored_symbols_body (ByNeed [] []) symbol.

(** Two outcomes of [colored_symbols] that give the same colours: the same
    exception, or lists with the same entries in some order. *)
Definition same_colors (r r' : result (by_need (list string))) : Prop :=
  match r, r' with
  | Ok cs, Ok cs' =>
      Permutation (required cs) (required cs') /\ Permutation (also cs) (also cs')
  | Raise e, Raise e' => e = e'
  | _, _ => False
  end.

(** * The rows of a card's faces: [magic/multiverse.py]

    [multiple_faces_values] is the caller of [cmc]: for a card with several
    faces it builds one database row per face, and computes the converted
    cost of each face from the face's mana cost.

    A card description is what [json.loads] gives: the model keeps Python's
    dynamic typing, so a key may be missing and a value may have any type.
    A [dict] with string keys is a [gmap string any].  The functions are
    modelled by the value they return and the exception they raise; the
    entry [cmc] that the loop stores in a face is seen by
    [single_face_value] through the updated face it is handed. *)

Module multiverse.

#[warnings="-register-all"]
Inductive any : Type :=
| PyNone
| PyBool (b : bool)
| PyInt (n : Z)
| PyFloat (x : spec_float)
| PyStr (s : string)
| PyList (items : list any)
| PyDict (entries : gmap string any).

Inductive exception : Type :=
| Exn (e : exn)                (* the exceptions of [magic/mana.py], and IndexError *)
| InvalidArgumentException     (* shared.pd_exception *)
| InvalidDataException         (* shared.pd_exception *)
| KeyError
| TypeError
| AttributeError.

Inductive outcome (A : Type) : Type :=
| Returns (a : A)
| Raises (e : exception).
Arguments Returns {A} a.
Arguments Raises {A} e.

#[global] Instance outcome_ret : MRet outcome := fun A a => Returns a.

#[global] Instance outcome_bind : MBind outcome := fun A B k m =>
  match m with
  | Returns a => k a
  | Raises e => Raises e
  end.

(** A [for] loop over a list whose body may raise. *)
Fixpoint for_in {S A : Type} (body : S -> A -> outcome S) (xs : list A) (st : S)
  : outcome S :=
  match xs with
  | [] => Returns st
  | x :: xs' => st' ← body st x; for_in body xs' st'
  end.

(** [bool(v)], the test of an [if]. *)
Definition truthy (v : any) : bool :=
  match v with
  | PyNone => false
  | PyBool b => b
  | PyInt n => negb (n =? 0)%Z
  | PyFloat x => match x with S754_zero _ => false | _ => true end
  | PyStr s => str.truthy s
  | PyList items => match items with [] => false | _ :: _ => true end
  | PyDict entries => negb (size entries =? 0)%nat
  end.

(** [v[0]].  The keys of a [dict] of a description are strings, so [0] is
    never among them. *)
Definition first_item (v : any) : outcome any :=
  match v with
  | PyList [] => Raises (Exn IndexError)
  | PyList (x :: _) => Returns x
  | PyStr EmptyString => Raises (Exn IndexError)
  | PyStr (String a _) => Returns (PyStr (String a EmptyString))
  | PyDict _ => Raises KeyError
  | PyNone | PyBool _ | PyInt _ | PyFloat _ => Raises TypeError
  end.

(** [v[key]] for a string [key]. *)
Definition item (v : any) (key : string) : outcome any :=
  match v with
  | PyDict entries =>
      match entries !! key with
      | Some x => Returns x
      | None => Raises KeyError
      end
  | _ => Raises TypeError
  end.

(** [v[key] = x] for a string [key]; the result is [v] after the
    assignment. *)
Definition set_item (v : any) (key : string) (x : any) : outcome any :=
  match v with
  | PyDict entries => Returns (PyDict (<[key := x]> entries))
  | _ => Raises TypeError
  end.

(** [v.get(key, default)]; [v.get(key)] has the default [None]. *)
Definition get (v : any) (key : string) (default : any) : outcome any :=
  match v with
  | PyDict entries =>
      Returns (match entries !! key with Some x => x | None => default end)
  | _ => Raises AttributeError
  end.

(** [for x in v]: the values the loop variable takes.  Only a list gets to
    the loop of [multiple_faces_values]. *)
Definition iterate (v : any) : outcome (list any) :=
  match v with
  | PyList items => Returns items
  | PyStr s => Returns (PyStr <$> str.chars s)
  | PyDict entries => Returns (PyStr <$> (map_to_list entries).*1)
  | PyNone | PyBool _ | PyInt _ | PyFloat _ => Raises TypeError
  end.

(** [mana.cmc(v)]: [parse] begins with [s.replace], a method of [str]
    alone among the values of a description. *)
Definition mana_cmc (v : any) : outcome spec_float :=
  match v with
  | PyStr mana_cost =>
      match cmc mana_cost with
      | Ok total => Returns total
      | Raise e => Raises (Exn e)
      end
  | _ => Raises AttributeError
  end.

Definition single_face_value (p : any) (card_id : Z) (position : Z)
  : outcome (gmap string any) :=
  if (card_id =? 0)%Z then Raises InvalidDataException else
  let result : gmap string any := ∅ in
  let result := <["card_id" := PyInt card_id]> result in
  name ← item p "name";
  let result := <["name" := name]> result in
  mana_cost ← item p "mana_cost";
  let result := <["mana_cost" := mana_cost]> result in
  cmc ← item p "cmc";
  let result := <["cmc" := cmc]> result in
  power ← get p "power" PyNone;
  let result := <["power" := power]> result in
  toughness ← get p "toughness" PyNone;
  let result := <["toughness" := toughness]> result in
  loyalty ← get p "loyalty" PyNone;
  let result := <["loyalty" := loyalty]> result in
  type_line ← get p "type_line" (PyStr "");
  let result := <["type_line" := type_line]> result in
  oracle_text ← get p "oracle_text" (PyStr "");
  let result := <["oracle_text" := oracle_text]> result in
  hand ← get p "hand_modifier" PyNone;
  let result := <["hand" := hand]> result in
  life ← get p "life_modifier" PyNone;
  let result := <["life" := life]> result in
  let result := <["position" := PyInt position]> result in
  Returns result.

(** The body of the loop of [multiple_faces_values]; the state is
    [position] and [face_values]. *)
Definition faces_body (first_face_cmc : spec_float) (card_id : Z)
    (st : Z * list (gmap string any)) (face : any)
  : outcome (Z * list (gmap string any)) :=
  let '(position, face_values) := st in
  condition ← item face "mana_cost";
  value ←
    (if truthy condition
     then mana_cost ← item face "mana_cost"; mana_cmc mana_cost
     else Returns first_face_cmc);
  face ← set_item face "cmc" (PyFloat value);
  row ← single_face_value face card_id position;
  Returns ((position + 1)%Z, face_values ++ [row]).

Definition multiple_faces_values (p : any) (card_id : Z)
  : outcome (list (gmap string any)) :=
  card_faces ← get p "card_faces" PyNone;
  match card_faces with
  | PyNone => Raises InvalidArgumentException
  | _ =>
      face ← first_item card_faces;
      mana_cost ← item face "mana_cost";
      first_face_cmc ← mana_cmc mana_cost;
      faces ← iterate card_faces;
      st ← for_in (faces_body first_face_cmc card_id) faces (1%Z, []);
      Returns (snd st)
  end.

(** A face that [multiple_faces_values] can turn into a row: a [dict]
    with a name and with a mana cost that [cmc] accepts. *)
Definition well_formed_face (face : any) : Prop :=
  exists entries name mana_cost total,
    face = PyDict entries /\
    entries !! "name" = Some name /\
    entries !! "mana_cost" = Some (PyStr mana_cost) /\
    cmc mana_cost = Ok total.

(** What the row of a face holds: the card and the position, the name and
    the mana cost of the face, and as its cost that of the face's own mana
    cost, or [first_face_cmc] when the face has none. *)
Definition row_of_face (first_face_cmc : spec_float) (card_id position : Z)
    (face : any) (row : gmap string any) : Prop :=
  exists name mana_cost value,
    item face "name" = Returns name /\
    item face "mana_cost" = Returns mana_cost /\
    (if truthy mana_cost then mana_cmc mana_cost else Returns first_face_cmc)
      = Returns value /\
    row !! "card_id" = Some (PyInt card_id) /\
    row !! "name" = Some name /\
    row !! "mana_cost" = Some mana_cost /\
    row !! "cmc" = Some (PyFloat value) /\
    row !! "position" = Some (PyInt position).

(** A small card with two faces, the second without a mana cost. *)
Definition two_faces : any :=
  PyDict
    (<["card_faces" :=
         PyList
           [PyDict (<["mana_cost" := PyStr "{1}{G}"]>
                    (<["name" := PyStr "Front"]> ∅));
            PyDict (<["cmc" := PyInt 9]>
                    (<["mana_cost" := PyStr ""]>
                    (<["name" := PyStr "Back"]> ∅)))]]>
     (<["name" := PyStr "Front // Back"]> ∅)).

(** Its rows, for the card id 7. *)
Definition two_faces_rows : list (gmap string any) :=
  match multiple_faces_values two_faces 7 with
  | Returns rows => rows
  | Raises _ => []
  end.

(** The same card with a second face whose mana cost is no mana cost. *)
Definition bad_second_face : any :=
  PyDict
    (<["card_faces" :=
         PyList
           [PyDict (<["mana_cost" := PyStr "{1}{G}"]>
                    (<["name" := PyStr "Front"]> ∅));
            PyDict (<["mana_cost" := PyStr "{Q}"]>
                    (<["name" := PyStr "Back"]> ∅))]]>
     (<["name" := PyStr "Front // Back"]> ∅)).

End multiverse.

(** * Properties *)

(** ** Strings *)

Section string_facts.

(** [+:+] is kept folded by [simpl]; these two equations unfold it. *)
Lemma app_cons (a : ascii) (s t : string) : String a s +:+ t = String a (s +:+ t).
Proof. reflexivity. Qed.

Lemma app_empty_l (t : string) : "" +:+ t = t.
Proof. reflexivity. Qed.

Lemma app_empty_r (s : string) : s +:+ "" = s.
Proof.
  induction s as [|a s IH]; [reflexivity |].
  now rewrite app_cons, IH.
Qed.

Lemma app_assoc_str (s t u : string) : (s +:+ t) +:+ u = s +:+ (t +:+ u).
Proof.
  induction s as [|a s IH]; [reflexivity |].
  now rewrite !app_cons, IH.
Qed.

Lemma app_eq_empty (s t : string) : s +:+ t = "" -> s = "" /\ t = "".
Proof. destruct s; [auto |]. rewrite app_cons. discriminate. Qed.

(** Splitting a non-empty concatenation at its first character. *)
Lemma app_eq_cons (s t : string) (a : ascii) (u : string) :
  s +:+ t = String a u ->
  (s = "" /\ t = String a u) \/ (exists s', s = String a s' /\ u = s' +:+ t).
Proof.
  destruct s as [|b s]; rewrite ?app_cons, ?app_empty_l; intros H.
  - left; auto.
  - right. injection H as -> <-. eauto.
Qed.

End string_facts.

(** ** Regular expressions: the matcher decides the language *)

Module re_facts.
Import re.

Lemma nullable_lang (r : regex) : nullable r = true <-> lang r "".
Proof.
  split.
  - induction r; simpl; intros H; try discriminate.
    + constructor.
    + apply andb_prop in H as [H1 H2].
      change "" with ("" +:+ ""). constructor; auto.
    + apply orb_prop in H as [H | H]; [apply lang_alt_l | apply lang_alt_r]; auto.
    + constructor.
  - intros H. remember "" as s eqn:Es.
    induction H; simpl; try discriminate; try reflexivity.
    + apply app_eq_empty in Es as [-> ->].
      rewrite IHlang1, IHlang2; auto.
    + rewrite IHlang; auto.
    + rewrite IHlang, orb_true_r; auto.
Qed.

(** A non-empty word of [r*] starts with a non-empty word of [r]. *)
Lemma star_cons_inv (r : regex) (a : ascii) (s : string) :
  lang (Star r) (String a s) ->
  exists s1 s2, s = s1 +:+ s2 /\ lang r (String a s1) /\ lang (Star r) s2.
Proof.
  intros H. remember (Star r) as r' eqn:Er. remember (String a s) as w eqn:Ew.
  induction H; try discriminate.
  injection Er as ->.
  apply app_eq_cons in Ew as [[-> ->] | (s' & -> & ->)].
  - apply IHlang2; reflexivity.
  - eauto.
Qed.

Lemma deriv_lang (a : ascii) (r : regex) (s : string) :
  lang (deriv a r) s <-> lang r (String a s).
Proof.
  revert s. induction r; intros s; simpl.
  - split; intros H; inversion H.
  - split; intros H; inversion H.
  - destruct (Ascii.eqb_spec a c) as [-> | Hne]; split; intros H; inversion H; subst.
    + constructor.
    + constructor.
    + congruence.
  - destruct (in_class a cs) eqn:Hin; split; intros H; inversion H; subst.
    + now constructor.
    + constructor.
    + congruence.
  - split.
    + intros H.
      assert (lang (Seq (deriv a r1) r2) s \/ (nullable r1 = true /\ lang (deriv a r2) s))
        as [H' | [Hn H']].
      { destruct (nullable r1); [inversion H; subst; auto | auto]. }
      * inversion H'; subst.
        change (String a (s1 +:+ s2)) with (String a s1 +:+ s2).
        constructor; [apply IHr1 | ]; assumption.
      * change (String a s) with ("" +:+ String a s).
        constructor; [now apply nullable_lang | now apply IHr2].
    + intros H. inversion H as [| | |? ? s1 s2 H1 H2 E1 E2| | | |]; subst.
      apply app_eq_cons in E2 as [[-> ->] | (s' & -> & ->)].
      * apply nullable_lang in H1. rewrite H1.
        apply lang_alt_r. now apply IHr2.
      * apply IHr1 in H1.
        destruct (nullable r1); [apply lang_alt_l |]; now constructor.
  - split; intros H; inversion H; subst.
    + apply lang_alt_l. now apply IHr1.
    + apply lang_alt_r. now apply IHr2.
    + apply lang_alt_l. now apply IHr1.
    + apply lang_alt_r. now apply IHr2.
  - split; intros H.
    + inversion H; subst.
      change (String a (s1 +:+ s2)) with (String a s1 +:+ s2).
      constructor; [now apply IHr | assumption].
    + apply star_cons_inv in H as (s1 & s2 & -> & H1 & H2).
      constructor; [now apply IHr | assumption].
Qed.

Theorem fullmatch_lang (r : regex) (s : string) :
  fullmatch r s = true <-> lang r s.
Proof.
  revert r. induction s as [|a s IH]; intros r; simpl.
  - apply nullable_lang.
  - rewrite IH. apply deriv_lang.
Qed.

Lemma chop_newline_spec (s s' : string) :
  chop_newline s = Some s' <-> s = s' +:+ String LF "".
Proof.
  revert s'. induction s as [|a s IH]; intros s'.
  - split; [discriminate | destruct s'; discriminate].
  - destruct s as [|b s].
    + simpl. destruct (Ascii.eqb_spec a "010") as [-> | Hne]; split; intros H.
      * now injection H as <-.
      * destruct s' as [|c [|d s']]; try discriminate; reflexivity.
      * discriminate.
      * destruct s' as [|c [|d s']]; try discriminate.
        injection H as ->. now contradiction Hne.
    + change (chop_newline (String a (String b s)))
        with (option_map (String a) (chop_newline (String b s))).
      destruct (chop_newline (String b s)) as [t|] eqn:Hc; simpl; split; intros H.
      * injection H as <-. rewrite app_cons. f_equal. now apply IH.
      * destruct s' as [|c s']; [discriminate |].
        rewrite app_cons in H. injection H as -> H.
        apply IH in H. congruence.
      * discriminate.
      * destruct s' as [|c s']; [discriminate |].
        rewrite app_cons in H. injection H as -> H.
        apply IH in H. discriminate.
Qed.

(** An anchored pattern accepts a word of its body, possibly followed by
    one line feed. *)
Theorem match_anchored (body : regex) (s : string) :
  match_ (Anchored body) s = true <->
  exists w, lang body w /\ (s = w \/ s = w +:+ String LF "").
Proof.
  unfold match_. rewrite orb_true_iff, fullmatch_lang. split.
  - intros [H | H]; [eauto |].
    destruct (chop_newline s) as [s'|] eqn:Hc; [| discriminate].
    apply chop_newline_spec in Hc. apply fullmatch_lang in H. eauto.
  - intros (w & Hw & [-> | ->]); [auto |].
    right. assert (chop_newline (w +:+ String LF "") = Some w) as ->
      by now apply chop_newline_spec.
    now apply fullmatch_lang.
Qed.

(** On a one-character string a bare class or character pattern tests
    that character. *)
Lemma match_bare_class (cs : charset) (a : ascii) :
  match_ (Bare (Class cs)) (String a "") = in_class a cs.
Proof. simpl. destruct (in_class a cs); reflexivity. Qed.

Lemma match_bare_chr (c a : ascii) :
  match_ (Bare (Chr c)) (String a "") = Ascii.eqb a c.
Proof. simpl. destruct (Ascii.eqb a c); reflexivity. Qed.

End re_facts.

(** ** The tokenizer *)

Section tokenizer.

(** The constants are pairwise distinct strings, so comparing [mode] with
    a constant, as [parse] does, is comparing constructors. *)
Lemma value_inj (k1 k2 : constant) : value k1 = value k2 -> k1 = k2.
Proof. destruct k1, k2; simpl; intros H; try reflexivity; discriminate H. Qed.

Lemma join_cons (x : string) (l : list string) :
  str.join "" (x :: l) = x +:+ str.join "" l.
Proof.
  unfold str.join. destruct l as [|y l]; simpl.
  - now rewrite app_empty_r.
  - reflexivity.
Qed.

Lemma join_app (l1 l2 : list string) :
  str.join "" (l1 ++ l2) = str.join "" l1 +:+ str.join "" l2.
Proof.
  induction l1 as [|x l1 IH].
  - reflexivity.
  - rewrite <- app_comm_cons, !join_cons, IH. now rewrite app_assoc_str.
Qed.

Lemma join_snoc (l : list string) (t : string) :
  str.join "" (l ++ [t]) = str.join "" l +:+ t.
Proof. rewrite join_app, join_cons. unfold str.join; simpl. now rewrite app_empty_r. Qed.

Lemma join_chars (s : string) : str.join "" (str.chars s) = s.
Proof.
  induction s as [|a s IH]; [reflexivity |].
  simpl str.chars. now rewrite join_cons, IH.
Qed.

(** The two [replace] calls of [parse] remove the braces. *)
Lemma replace_braces (s : string) :
  str.replace "}" "" (str.replace "{" "" s) = strip_braces s.
Proof.
  induction s as [|a s IH]; [reflexivity |].
  simpl. destruct (Ascii.eqb a "{") eqn:Hopen; simpl.
  - now rewrite app_empty_l.
  - destruct (Ascii.eqb a "}"); [rewrite app_empty_l | f_equal]; exact IH.
Qed.

Lemma parse_body_consumes (st st' : scanner) (c : string) :
  settled st -> parse_body st c = Ok st' ->
  settled st' /\ consumed st' = consumed st +:+ c.
Proof.
  destruct st as [tmp0 toks m]. intros (Hstart & HX & HM) H.
  unfold settled, consumed.
  destruct m; simpl in *; try congruence;
    try (rewrite (Hstart eq_refl) in * );
    repeat match type of H with
           | (if ?b then _ else _) = _ => destruct b
           end;
    try discriminate; injection H as <-; simpl;
    (split; [repeat split; congruence |]);
    rewrite ?join_snoc, ?app_assoc_str, ?app_empty_r, ?app_empty_l; reflexivity.
Qed.

Lemma parse_loop_consumes (cs : list string) (st st' : scanner) :
  settled st -> for_each parse_body cs st = Ok st' ->
  settled st' /\ consumed st' = consumed st +:+ str.join "" cs.
Proof.
  revert st. induction cs as [|c cs IH]; intros st Hst H; simpl in H.
  - injection H as <-. split; [assumption |].
    unfold str.join; simpl. now rewrite app_empty_r.
  - destruct (parse_body st c) as [st1|e] eqn:Hbody; [| discriminate].
    apply parse_body_consumes in Hbody as [Hst1 Hc]; [| assumption].
    apply IH in H as [Hst' Hcs]; [| assumption].
    split; [assumption |].
    now rewrite Hcs, Hc, join_cons, app_assoc_str.
Qed.

(** C1.  Whenever [parse] returns, its tokens joined with no separator
    are the input without its braces: the tokens cut the brace-free
    input into consecutive pieces, with nothing lost, added or repeated. *)
Theorem parse_round_trip (s : string) (symbols : list string) :
  parse s = Ok symbols -> str.join "" symbols = strip_braces s.
Proof.
  unfold parse. rewrite replace_braces. intros H.
  destruct (for_each parse_body (str.chars (strip_braces s)) (Scanner "" [] START))
    as [st|e] eqn:Hloop; [| discriminate].
  injection H as <-.
  apply parse_loop_consumes in Hloop as [_ Hc].
  - rewrite join_chars in Hc. unfold consumed in Hc. simpl in Hc.
    rewrite app_empty_l in Hc. rewrite <- Hc.
    destruct (tmp st) as [|a t] eqn:Ht; simpl.
    + now rewrite app_empty_r.
    + now rewrite join_snoc.
  - repeat split; simpl; congruence.
Qed.

Lemma parse_round_trip_witness :
  parse "{2}{W/U}{X}" = Ok ["2"; "W/U"; "X"] /\
  str.join "" ["2"; "W/U"; "X"] = strip_braces "{2}{W/U}{X}".
Proof.
  split; [reflexivity |].
  apply (parse_round_trip "{2}{W/U}{X}" ["2"; "W/U"; "X"]). reflexivity.
Defined.

End tokenizer.

(** ** Inputs the tokenizer lets through *)

Section tokenizer_cases.

(** C2.  [parse] rejects [{Q}], but a scan that stops right after a slash
    is not an error: the loop ends, the accumulator is not empty, and it
    is appended as a last token.  [{W/}] and [{2/}] come back as the
    one-token lists [W/] and [2/]. *)
Theorem parse_unterminated_slash :
  parse "{Q}" = Raise InvalidManaCostException /\
  parse "{W/}" = Ok ["W/"] /\
  parse "{2/}" = Ok ["2/"].
Proof. repeat split; reflexivity. Qed.

(** C10.  [parse] accepts [2X/P] and returns the tokens [2] and [X/P];
    none of the seven classifiers accepts [X/P], so both [cmc] and
    [colors] raise [InvalidManaCostException] on this input. *)
Theorem parse_accepts_unclassifiable :
  parse "2X/P" = Ok ["2"; "X/P"] /\
  unrecognized "X/P" /\
  cmc "2X/P" = Raise InvalidManaCostException /\
  (symbols ← parse "2X/P"; colors symbols) = Raise InvalidManaCostException.
Proof.
  split; [reflexivity |]. split; [| split; reflexivity].
  unfold unrecognized, classifiers. repeat constructor.
Qed.

End tokenizer_cases.

(** ** Scores *)

Section scores.

Lemma for_each_cons {S A : Type} (body : S -> A -> result S) (x : A) (xs : list A)
  (st : S) :
  for_each body (x :: xs) st = (st' ← body st x; for_each body xs st').
Proof. reflexivity. Qed.

Lemma bind_ok {A B : Type} (a : A) (k : A -> result B) : (Ok a ≫= k) = k a.
Proof. reflexivity. Qed.

Lemma index_wheel (symbol : string) :
  In symbol wheel -> pylist.index wheel symbol = Ok (cycle_index symbol).
Proof.
  unfold wheel. simpl.
  intros [<- | [<- | [<- | [<- | [<- | []]]]]]; reflexivity.
Qed.

Lemma index_priorities (symbol : string) :
  In symbol known_symbols ->
  pylist.index priorities (Some symbol) = Ok (priority_index symbol).
Proof.
  unfold known_symbols. simpl.
  intros [<- | [<- | [<- | [<- | [<- | [<- | [<- | []]]]]]]]; reflexivity.
Qed.

(** The comprehension of [order_score] drops exactly [C] and [S]. *)
Lemma filter_colorless (symbols : list string) :
  filter (fun symbol => symbol ∉ ["C"; "S"]) symbols = without_colorless symbols.
Proof.
  induction symbols as [|x l IH]; [reflexivity |].
  rewrite filter_cons, IH.
  change (without_colorless (x :: l))
    with (if negb (String.eqb x "C" || String.eqb x "S")
          then x :: without_colorless l else without_colorless l).
  destruct (decide (x ∉ ["C"; "S"])) as [Hx | Hx];
    destruct (String.eqb_spec x "C") as [EC | HC];
    destruct (String.eqb_spec x "S") as [ES | HS]; simpl;
    try reflexivity; exfalso;
    rewrite ?not_elem_of_cons, ?elem_of_cons in Hx; try tauto.
  apply Hx. repeat split; try assumption. apply not_elem_of_nil.
Qed.

Lemma without_colorless_on_wheel (symbols : list string) :
  Forall (fun symbol => In symbol known_symbols) symbols ->
  Forall (fun symbol => In symbol wheel) (without_colorless symbols).
Proof.
  induction 1 as [|x l Hx _ IH]; simpl; [constructor |].
  unfold known_symbols in Hx. simpl in Hx.
  destruct Hx as [<- | [<- | [<- | [<- | [<- | [<- | [<- | []]]]]]]]; simpl;
    try assumption; constructor; try assumption; unfold wheel; simpl; tauto.
Qed.

Lemma order_score_body_distance (score current : Z) (symbol : string) :
  In symbol wheel ->
  order_score_body wheel (score, current) symbol =
  Ok ((score + forward_distance current (cycle_index symbol))%Z, cycle_index symbol).
Proof.
  intros H. unfold order_score_body. rewrite (index_wheel _ H). simpl.
  unfold forward_distance, pylist.len. simpl.
  destruct (Z.ltb_spec (cycle_index symbol) current);
    destruct (Z.ltb_spec (cycle_index symbol - current) 0); try lia; reflexivity.
Qed.

Lemma order_score_loop (rest : list string) (score current : Z) :
  Forall (fun symbol => In symbol wheel) rest ->
  exists last,
    for_each (order_score_body wheel) rest (score, current) =
    Ok ((score + path_length (current :: map cycle_index rest))%Z, last).
Proof.
  intros H. revert score current.
  induction H as [|x l Hx _ IH]; intros score current.
  - exists current. simpl. do 2 f_equal. lia.
  - rewrite for_each_cons, (order_score_body_distance _ _ _ Hx), bind_ok.
    destruct (IH (score + forward_distance current (cycle_index x))%Z (cycle_index x))
      as [last ->].
    exists last. do 2 f_equal. simpl. lia.
Qed.

Lemma order_score_on_wheel (symbols : list string) :
  Forall (fun symbol => In symbol wheel) (without_colorless symbols) ->
  order_score symbols = Ok (order_score_formula symbols).
Proof.
  intros H. unfold order_score, order_score_formula. rewrite filter_colorless.
  destruct (without_colorless symbols) as [|first rest]; [reflexivity |].
  inversion H as [|? ? Hfirst Hrest]; subst.
  rewrite (index_wheel _ Hfirst). simpl.
  destruct (order_score_loop rest 0 (cycle_index first) Hrest) as [last ->].
  rewrite !bind_ok. reflexivity.
Qed.

(** C7.  On symbols from [WUBRGCS], [order_score] drops every [C] and
    [S]; an empty remainder scores 0; otherwise the score is ten times
    the sum of the forward distances between consecutive colours on the
    cycle W=0, U=1, B=2, R=3, G=4 (index difference, plus 5 when
    negative), plus the index of the first remaining colour. *)
Theorem order_score_is_formula (symbols : list string) :
  Forall (fun symbol => In symbol known_symbols) symbols ->
  order_score symbols = Ok (order_score_formula symbols).
Proof.
  intros Hknown. apply order_score_on_wheel.
  apply without_colorless_on_wheel. exact Hknown.
Qed.

Lemma order_score_is_formula_witness :
  order_score ["G"; "C"; "W"; "U"] = Ok 24%Z.
Proof.
  apply (order_score_is_formula ["G"; "C"; "W"; "U"]).
  repeat constructor; unfold known_symbols; simpl; tauto.
Defined.

Lemma sigma_succ (n : nat) (f : nat -> Z) :
  sigma (S n) f = (f 1%nat + sigma n (fun i => f (S i)))%Z.
Proof.
  unfold sigma. simpl. f_equal.
  rewrite <- seq_shift, map_map. reflexivity.
Qed.

Lemma sigma_ext (n : nat) (f g : nat -> Z) :
  (forall i, (1 <= i <= n)%nat -> f i = g i) -> sigma n f = sigma n g.
Proof.
  intros H. unfold sigma. f_equal. apply map_ext_in.
  intros i Hi. apply in_seq in Hi. apply H. lia.
Qed.

Lemma sort_score_body_known (score i : Z) (symbol : string) :
  In symbol known_symbols ->
  sort_score_body priorities score (i, symbol) =
  Ok (score + priority_index symbol * 10 * i)%Z.
Proof.
  intros H. cbv beta iota delta [sort_score_body].
  now rewrite (index_priorities _ H).
Qed.

Lemma sort_score_loop (l : list string) (start score : Z) :
  Forall (fun symbol => In symbol known_symbols) l ->
  for_each (sort_score_body priorities) (pylist.enumerate l start) score =
  Ok (score + sigma (length l)
                (fun i => priority_index (nth (i - 1) l "") * 10
                          * (start + Z.of_nat i - 1)))%Z.
Proof.
  intros H. revert start score.
  induction H as [|x l Hx _ IH]; intros start score.
  - simpl. f_equal. unfold sigma. simpl. lia.
  - simpl pylist.enumerate. rewrite for_each_cons.
    rewrite (sort_score_body_known _ _ _ Hx), bind_ok.
    rewrite IH. f_equal. simpl length. rewrite sigma_succ. simpl.
    rewrite <- Z.add_assoc. f_equal. f_equal; [f_equal; lia |].
    apply sigma_ext. intros i Hi.
    replace (i - 0)%nat with (S (i - 1)) by lia. simpl. f_equal. lia.
Qed.

(** C9.  On symbols from the priority list, [sort_score] is the sum,
    over the reversed sequence with positions [i] counted from one, of
    the symbol's index in [none, C, S, W, U, B, R, G] times 10 times
    [i]. *)
Theorem sort_score_is_formula (symbols : list string) :
  Forall (fun symbol => In symbol known_symbols) symbols ->
  sort_score symbols = Ok (sort_score_formula symbols).
Proof.
  intros H. unfold sort_score, sort_score_formula.
  rewrite sort_score_loop by (apply Forall_rev; exact H).
  rewrite length_rev. f_equal. rewrite Z.add_0_l.
  apply sigma_ext. intros i _. f_equal. lia.
Qed.

Lemma sort_score_is_formula_witness :
  sort_score ["G"; "W"; "U"] = Ok 310%Z.
Proof.
  apply (sort_score_is_formula ["G"; "W"; "U"]).
  repeat constructor; unfold known_symbols; simpl; tauto.
Defined.

End scores.

(** ** Permutations and the stable sort *)

Section permutations.

Context {A : Type}.

Lemma selects_sound (pool : list A) (x : A) (rest : list A) :
  In (x, rest) (itertools.selects pool) -> Permutation pool (x :: rest).
Proof.
  revert x rest. induction pool as [|y pool IH]; intros x rest; simpl.
  - intros [].
  - intros [E | H].
    + injection E as <- <-. reflexivity.
    + apply in_map_iff in H as ([z r] & E & Hin).
      injection E as <- <-.
      rewrite (IH _ _ Hin). apply perm_swap.
Qed.

Lemma selects_complete (l1 l2 : list A) (x : A) :
  In (x, l1 ++ l2) (itertools.selects (l1 ++ x :: l2)).
Proof.
  induction l1 as [|y l1 IH]; simpl.
  - left. reflexivity.
  - right. apply in_map_iff. exists (x, l1 ++ l2). split; [reflexivity | exact IH].
Qed.

Lemma permutations_of_length_sound (n : nat) (pool p : list A) :
  length pool = n -> In p (itertools.permutations_of_length n pool) ->
  Permutation pool p.
Proof.
  revert pool p. induction n as [|n IH]; intros pool p Hlen; simpl.
  - intros [<- | []]. destruct pool; [reflexivity | discriminate].
  - intros H. apply in_flat_map in H as ([x rest] & Hsel & Hp).
    apply in_map_iff in Hp as (p' & <- & Hp').
    apply selects_sound in Hsel.
    assert (length rest = n) as Hrest.
    { apply Permutation_length in Hsel. simpl in Hsel. lia. }
    rewrite Hsel. apply perm_skip. now apply IH.
Qed.

Lemma permutations_of_length_complete (n : nat) (pool p : list A) :
  length pool = n -> Permutation pool p ->
  In p (itertools.permutations_of_length n pool).
Proof.
  revert pool p. induction n as [|n IH]; intros pool p Hlen Hperm; simpl.
  - destruct pool; [| discriminate].
    apply Permutation_nil in Hperm as ->. now left.
  - destruct p as [|x p'].
    { apply Permutation_length in Hperm. simpl in Hperm. lia. }
    assert (In x pool) as Hx.
    { apply (Permutation_in x (Permutation_sym Hperm)). now left. }
    apply in_split in Hx as (l1 & l2 & ->).
    apply Permutation_sym, Permutation_cons_app_inv in Hperm.
    apply in_flat_map. exists (x, l1 ++ l2). split.
    + apply selects_complete.
    + apply in_map. apply IH.
      * rewrite length_app in *. simpl in Hlen. lia.
      * now apply Permutation_sym.
Qed.

(** [itertools.permutations] lists exactly the orderings of the pool. *)
Theorem permutations_spec (pool p : list A) :
  In p (itertools.permutations pool) <-> Permutation pool p.
Proof.
  unfold itertools.permutations. split.
  - now apply permutations_of_length_sound.
  - now apply permutations_of_length_complete.
Qed.

Variable key : A -> Z.

(** The head of a stably sorted list is the first element of least key. *)
Lemma stable_sort_head (x : A) (l : list A) :
  exists m rest before after,
    builtins.stable_sort key (x :: l) = m :: rest /\
    x :: l = before ++ m :: after /\
    Forall (fun y => (key m < key y)%Z) before /\
    Forall (fun y => (key m <= key y)%Z) after.
Proof.
  revert x. induction l as [|y l IH]; intros x.
  - exists x, [], [], []. repeat split; constructor.
  - destruct (IH y) as (m & rest & before & after & Hsort & Hsplit & Hb & Ha).
    change (builtins.stable_sort key (x :: y :: l))
      with (builtins.insert_by key x (builtins.stable_sort key (y :: l))).
    rewrite Hsort. simpl.
    destruct (Z.leb_spec (key x) (key m)) as [Hle | Hlt].
    + exists x, (m :: rest), [], (y :: l). repeat split; [constructor |].
      rewrite Hsplit. apply List.Forall_app. split.
      * eapply List.Forall_impl; [| exact Hb]. simpl. intros; lia.
      * constructor; [exact Hle |].
        eapply List.Forall_impl; [| exact Ha]. simpl. intros; lia.
    + exists m, (builtins.insert_by key x rest), (x :: before), after.
      repeat split; [now rewrite Hsplit | | assumption].
      constructor; assumption.
Qed.

End permutations.

Section ordering.

Lemma map_raising_total {A B : Type} (f : A -> result B) (g : A -> B) (l : list A) :
  Forall (fun x => f x = Ok (g x)) l -> builtins.map_raising f l = Ok (map g l).
Proof.
  induction 1 as [|x l Hx _ IH]; simpl; [reflexivity |].
  now rewrite Hx, bind_ok, IH.
Qed.

Lemma known_permutation (symbols p : list string) :
  Forall (fun symbol => In symbol known_symbols) symbols ->
  Permutation symbols p ->
  order_score p = Ok (order_score_formula p).
Proof.
  intros Hknown Hperm. apply order_score_on_wheel, without_colorless_on_wheel.
  rewrite List.Forall_forall in *. intros x Hx.
  apply Hknown. now apply (Permutation_in x (Permutation_sym Hperm)).
Qed.

(** What [order] computes on known symbols, in terms of the formula. *)
Lemma order_known (symbols : list string) :
  Forall (fun symbol => In symbol known_symbols) symbols ->
  exists best before after,
    order symbols = Ok best /\
    itertools.permutations symbols = before ++ best :: after /\
    Forall (fun p => (order_score_formula best < order_score_formula p)%Z) before /\
    Forall (fun p => (order_score_formula best <= order_score_formula p)%Z) after.
Proof.
  intros Hknown. unfold order, builtins.sorted.
  set (keyed := fun p : list string => (order_score_formula p, p)).
  rewrite (map_raising_total _ keyed).
  2:{ apply List.Forall_forall. intros p Hp. apply permutations_spec in Hp.
      now rewrite (known_permutation symbols p Hknown Hp). }
  rewrite bind_ok.
  destruct (itertools.permutations symbols) as [|p0 ps] eqn:Hperms.
  { assert (In symbols (itertools.permutations symbols)) as Hin
      by now apply permutations_spec.
    rewrite Hperms in Hin. destruct Hin. }
  destruct (stable_sort_head fst (keyed p0) (map keyed ps))
    as (m & rest & before & after & Hsort & Hsplit & Hb & Ha).
  change (map keyed (p0 :: ps)) with (keyed p0 :: map keyed ps). rewrite Hsort.
  change (keyed p0 :: map keyed ps) with (map keyed (p0 :: ps)) in Hsplit.
  apply map_eq_app in Hsplit as (before' & tail & Hps & <- & Htail).
  apply map_eq_cons in Htail as (best & after' & -> & <- & <-).
  exists best, before', after'. simpl. repeat split.
  - exact Hps.
  - apply List.Forall_forall. intros p Hp.
    rewrite List.Forall_forall in Hb. apply (Hb (keyed p)). now apply in_map.
  - apply List.Forall_forall. intros p Hp.
    rewrite List.Forall_forall in Ha. apply (Ha (keyed p)). now apply in_map.
Qed.

(** C6.  On symbols from [WUBRGCS], [order] returns an ordering of its
    input whose [order_score] is least among all orderings of the input,
    and every ordering that [itertools.permutations] emits before it
    scores strictly more: ties go to the ordering emitted first. *)
Theorem order_first_minimum (symbols : list string) :
  Forall (fun symbol => In symbol known_symbols) symbols ->
  exists best before after,
    order symbols = Ok best /\
    Permutation symbols best /\
    itertools.permutations symbols = before ++ best :: after /\
    (forall p, Permutation symbols p -> scores_at_most best p) /\
    Forall (fun p => scores_below best p) before.
Proof.
  intros Hknown.
  destruct (order_known symbols Hknown)
    as (best & before & after & Horder & Hsplit & Hb & Ha).
  assert (forall p, In p (itertools.permutations symbols) ->
                    order_score p = Ok (order_score_formula p)) as Hscore.
  { intros p Hp. apply permutations_spec in Hp.
    exact (known_permutation symbols p Hknown Hp). }
  assert (In best (itertools.permutations symbols)) as Hbest.
  { rewrite Hsplit. apply in_elt. }
  exists best, before, after. repeat split; try assumption.
  - now apply permutations_spec.
  - intros p Hp. apply permutations_spec in Hp.
    exists (order_score_formula best), (order_score_formula p).
    repeat split; [now apply Hscore | now apply Hscore |].
    rewrite Hsplit in Hp. apply in_app_or in Hp as [Hp | [<- | Hp]].
    + rewrite List.Forall_forall in Hb. specialize (Hb p Hp). lia.
    + lia.
    + rewrite List.Forall_forall in Ha. exact (Ha p Hp).
  - apply List.Forall_forall. intros p Hp.
    exists (order_score_formula best), (order_score_formula p).
    repeat split; [now apply Hscore | | ].
    + apply Hscore. rewrite Hsplit. apply in_or_app. now left.
    + rewrite List.Forall_forall in Hb. exact (Hb p Hp).
Qed.

Lemma order_first_minimum_witness :
  exists best before after,
    order ["W"; "U"; "G"] = Ok best /\
    Permutation ["W"; "U"; "G"] best /\
    itertools.permutations ["W"; "U"; "G"] = before ++ best :: after /\
    (forall p, Permutation ["W"; "U"; "G"] p -> scores_at_most best p) /\
    Forall (fun p => scores_below best p) before.
Proof.
  apply (order_first_minimum ["W"; "U"; "G"]).
  repeat constructor; unfold known_symbols; simpl; tauto.
Defined.

(** C8, as the code has it.  Whatever order the three symbols G, W, U
    arrive in, [order] returns G, W, U: its score is 24 (G to W is 1,
    W to U is 1, first colour G has index 4), against 40 for W, U, G
    (W to U is 1, U to G is 3). *)
Theorem order_GWU (symbols : list string) :
  Permutation ["G"; "W"; "U"] symbols ->
  order symbols = Ok ["G"; "W"; "U"] /\
  order_score ["G"; "W"; "U"] = Ok 24%Z /\
  order_score ["W"; "U"; "G"] = Ok 40%Z.
Proof.
  intros H. apply permutations_spec in H.
  split; [| split; reflexivity].
  vm_compute in H.
  repeat (destruct H as [<- | H]; [reflexivity |]).
  destruct H.
Qed.

Lemma order_GWU_witness :
  order ["U"; "G"; "W"] = Ok ["G"; "W"; "U"] /\
  order_score ["G"; "W"; "U"] = Ok 24%Z /\
  order_score ["W"; "U"; "G"] = Ok 40%Z.
Proof.
  apply (order_GWU ["U"; "G"; "W"]).
  apply perm_trans with ["G"; "U"; "W"]; [apply perm_skip, perm_swap | apply perm_swap].
Defined.

(** C8, as the specification has it, fails: in none of the six orders
    the symbols can arrive in does [order] return W, U, G. *)
Lemma order_GWU_is_not_WUG :
  Forall (fun symbols => order symbols <> Ok ["W"; "U"; "G"])
    [["G"; "W"; "U"]; ["G"; "U"; "W"]; ["W"; "G"; "U"];
     ["W"; "U"; "G"]; ["U"; "G"; "W"]; ["U"; "W"; "G"]].
Proof. repeat constructor; intros H; vm_compute in H; discriminate. Qed.

End ordering.

(** ** The classifiers *)

Section classifier_shapes.
Import re re_facts.

Ltac lang_inv :=
  repeat match goal with
         | H : lang (Seq _ _) _ |- _ => inversion H; subst; clear H
         | H : lang (Alt _ _) _ |- _ => inversion H; subst; clear H
         | H : lang (Chr _) _ |- _ => inversion H; subst; clear H
         | H : lang (Class _) _ |- _ => inversion H; subst; clear H
         | H : lang Eps _ |- _ => inversion H; subst; clear H
         end.

Ltac flatten_in H := rewrite ?app_cons, ?app_empty_l, ?app_empty_r in H.

(** *** Characters *)

Lemma digit_facts (a : ascii) :
  str.is_digit a = true ->
  is_color a = false /\ Ascii.eqb a "H" = false /\
  in_class a (AnyOf "XYZ") = false /\ Ascii.eqb a "/" = false /\
  str.is_space a = false.
Proof.
  destruct a as [[] [] [] [] [] [] [] []]; vm_compute; intros H;
    try discriminate H; repeat split.
Qed.


Lemma xyz_facts (a : ascii) :
  in_class a (AnyOf "XYZ") = true ->
  is_color a = false /\ Ascii.eqb a "H" = false.
Proof.
  destruct a as [[] [] [] [] [] [] [] []]; vm_compute; intros H;
    try discriminate H; repeat split.
Qed.

Lemma star_digits (w : string) :
  lang (Star (Class (Range "0" "9"))) w -> all_digits w = true.
Proof.
  intros H. remember (Star (Class (Range "0" "9"))) as r eqn:Er.
  induction H; try discriminate; [reflexivity |].
  injection Er as ->. inversion H; subst.
  rewrite app_cons, app_empty_l. simpl.
  apply andb_true_intro. split; [assumption | now apply IHlang2].
Qed.

Lemma digits_star (w : string) :
  all_digits w = true -> lang (Star (Class (Range "0" "9"))) w.
Proof.
  induction w as [|a w IH]; simpl; intros H; [constructor |].
  apply andb_prop in H as [Ha Hw].
  change (String a w) with (String a "" +:+ w).
  constructor; [now constructor | now apply IH].
Qed.

(** *** What each classifier accepts *)

Lemma generic_shape (t : string) :
  generic t = true <->
  exists d w e, t = String d (w +:+ e) /\ str.is_digit d = true /\
                all_digits w = true /\ line_end e.
Proof.
  unfold generic, compile, Plus. rewrite match_anchored. split.
  - intros (w & Hw & He). inversion Hw as [| | |? ? s1 s2 H1 H2| | | |]; subst.
    inversion H1; subst. apply star_digits in H2.
    destruct He as [-> | ->]; flatten_in H2.
    + exists a, s2, "". rewrite app_cons, app_empty_l, app_empty_r.
      repeat split; try assumption. now left.
    + exists a, s2, (String LF ""). rewrite !app_cons, app_empty_l.
      repeat split; try assumption. now right.
  - intros (d & w & e & -> & Hd & Hw & He).
    exists (String d w). split.
    + change (String d w) with (String d "" +:+ w).
      constructor; [now constructor | now apply digits_star].
    + destruct He as [-> | ->]; [left | right];
        now rewrite ?app_cons, ?app_empty_r.
Qed.

(** After inversion: name the characters and the line end that make
    the goal's existential true. *)
Ltac close_shape :=
  rewrite ?app_cons, ?app_empty_l, ?app_empty_r; unfold line_end;
  first
    [ match goal with
      | Ha : in_class ?a _ = true, Hb : in_class ?b _ = true |- _ =>
          first [ exists a, b, ""; solve [repeat split; auto]
                | exists a, b, (String LF ""); solve [repeat split; auto] ]
      end
    | match goal with
      | Ha : in_class ?a _ = true |- _ =>
          first [ exists a, ""; solve [repeat split; auto]
                | exists a, (String LF ""); solve [repeat split; auto] ]
      end ].

Ltac close_end He :=
  destruct He as [-> | ->]; [left | right];
  rewrite ?app_cons, ?app_empty_l, ?app_empty_r; reflexivity.

Lemma variable_shape (t : string) :
  variable t = true ->
  exists x e, t = String x e /\ in_class x (AnyOf "XYZ") = true /\ line_end e.
Proof.
  unfold variable, compile. intros H.
  apply match_anchored in H as (w & Hw & He). lang_inv.
  destruct He as [-> | ->]; close_shape.
Qed.

Lemma colored_shape (t : string) :
  colored t = true <->
  exists a e, t = String a e /\ is_color a = true /\ line_end e.
Proof.
  unfold colored, compile, is_color. rewrite match_anchored. split.
  - intros (w & Hw & He). lang_inv.
    destruct He as [-> | ->]; close_shape.
  - intros (a & e & -> & Ha & He). exists (String a ""). split.
    + now constructor.
    + close_end He.
Qed.

Lemma half_shape (t : string) :
  half t = true ->
  exists a e, t = String "H" (String a e) /\ is_color a = true /\ line_end e.
Proof.
  unfold half, compile, is_color. intros H.
  apply match_anchored in H as (w & Hw & He). lang_inv.
  destruct He as [-> | ->]; close_shape.
Qed.

Lemma twobrid_shape (t : string) :
  twobrid t = true <->
  exists a e, t = String "2" (String "/" (String a e)) /\ is_color a = true /\
              line_end e.
Proof.
  unfold twobrid, compile, is_color. rewrite match_anchored. split.
  - intros (w & Hw & He). lang_inv.
    destruct He as [-> | ->]; close_shape.
  - intros (a & e & -> & Ha & He).
    exists (String "2" (String "/" (String a ""))). split.
    + change (String "2" (String "/" (String a "")))
        with (String "2" "" +:+ (String "/" "" +:+ String a "")).
      repeat constructor. assumption.
    + close_end He.
Qed.

Lemma hybrid_shape (t : string) :
  hybrid t = true <->
  (exists a b e,
     t = String a (String "/" (String b e)) /\
     is_color a = true /\ is_color b = true /\ line_end e) \/
  (exists a b e,
     t = String a (String "/" (String b (String "/" (String "P" e)))) /\
     is_color a = true /\ is_color b = true /\ line_end e).
Proof.
  unfold hybrid, compile, Opt, is_color. rewrite match_anchored. split.
  - intros (w & Hw & He). lang_inv.
    + right. destruct He as [-> | ->]; close_shape.
    + left. destruct He as [-> | ->]; close_shape.
  - intros [(a & b & e & -> & Ha & Hb & He) | (a & b & e & -> & Ha & Hb & He)].
    + exists (String a (String "/" (String b ""))). split.
      * change (String a (String "/" (String b "")))
          with (String a "" +:+ (String "/" "" +:+ (String b "" +:+ ""))).
        repeat constructor; assumption.
      * close_end He.
    + exists (String a (String "/" (String b (String "/" (String "P" ""))))). split.
      * change (String a (String "/" (String b (String "/" (String "P" "")))))
          with (String a "" +:+ (String "/" "" +:+ (String b "" +:+
                 (String "/" "" +:+ String "P" "")))).
        constructor; [now constructor |].
        constructor; [constructor |].
        constructor; [now constructor |].
        apply lang_alt_l. repeat constructor.
      * close_end He.
Qed.

Lemma phyrexian_shape (t : string) :
  phyrexian t = true <->
  (exists a e,
     t = String a (String "/" (String "P" e)) /\
     is_color a = true /\ line_end e) \/
  (exists a b e,
     t = String a (String "/" (String b (String "/" (String "P" e)))) /\
     is_color a = true /\ is_color b = true /\ line_end e).
Proof.
  unfold phyrexian, compile, Opt, is_color. rewrite match_anchored. split.
  - intros (w & Hw & He). lang_inv.
    + right. destruct He as [-> | ->]; close_shape.
    + left. destruct He as [-> | ->]; close_shape.
  - intros [(a & e & -> & Ha & He) | (a & b & e & -> & Ha & Hb & He)].
    + exists (String a (String "/" (String "P" ""))). split.
      * change (String a (String "/" (String "P" "")))
          with ("" +:+ (String a "" +:+ (String "/" "" +:+ String "P" ""))).
        constructor; [apply lang_alt_r; constructor |].
        repeat constructor. assumption.
      * close_end He.
    + exists (String a (String "/" (String b (String "/" (String "P" ""))))). split.
      * change (String a (String "/" (String b (String "/" (String "P" "")))))
          with ((String a "" +:+ String "/" "") +:+
                (String b "" +:+ (String "/" "" +:+ String "P" ""))).
        constructor; [apply lang_alt_l |]; repeat constructor; assumption.
      * close_end He.
Qed.

End classifier_shapes.

Section classifier_kinds.
Import re.

Lemma second_not_slash_digits (w e : string) :
  all_digits w = true -> line_end e -> second_is_slash (w +:+ e) = false.
Proof.
  intros Hw He. destruct w as [|d w].
  - rewrite app_empty_l. destruct He as [-> | ->]; reflexivity.
  - rewrite app_cons. simpl in *. apply andb_prop in Hw as [Hd _].
    now destruct (digit_facts d Hd) as (_ & _ & _ & -> & _).
Qed.

Lemma generic_kind (t : string) : generic t = true -> kind_of t = Some KGeneric.
Proof.
  intros H. apply generic_shape in H as (d & w & e & -> & Hd & Hw & He).
  unfold kind_of.
  destruct (digit_facts d Hd) as (-> & -> & -> & _ & _). rewrite Hd.
  now rewrite second_not_slash_digits.
Qed.

Lemma variable_kind (t : string) : variable t = true -> kind_of t = Some KVariable.
Proof.
  intros H. apply variable_shape in H as (x & e & -> & Hx & He).
  unfold kind_of. destruct (xyz_facts x Hx) as (-> & ->). now rewrite Hx.
Qed.

Lemma phyrexian_kind (t : string) : phyrexian t = true -> kind_of t = Some KSlashed.
Proof.
  intros H.
  apply phyrexian_shape in H
    as [(a & e & -> & Ha & He) | (a & b & e & -> & Ha & Hb & He)];
    unfold kind_of; now rewrite Ha.
Qed.

Lemma hybrid_kind (t : string) : hybrid t = true -> kind_of t = Some KSlashed.
Proof.
  intros H.
  apply hybrid_shape in H
    as [(a & b & e & -> & Ha & Hb & He) | (a & b & e & -> & Ha & Hb & He)];
    unfold kind_of; now rewrite Ha.
Qed.

Lemma twobrid_kind (t : string) : twobrid t = true -> kind_of t = Some KTwobrid.
Proof.
  intros H. apply twobrid_shape in H as (a & e & -> & Ha & He). reflexivity.
Qed.

Lemma half_kind (t : string) : half t = true -> kind_of t = Some KHalf.
Proof.
  intros H. apply half_shape in H as (a & e & -> & Ha & He). reflexivity.
Qed.

Lemma colored_kind (t : string) : colored t = true -> kind_of t = Some KColored.
Proof.
  intros H. apply colored_shape in H as (a & e & -> & Ha & He).
  unfold kind_of. rewrite Ha. destruct He as [-> | ->]; reflexivity.
Qed.

(** Where two classifiers do agree. *)
Lemma both_slashed_shape (t : string) :
  phyrexian t = true -> hybrid t = true -> hybrid_phyrexian_shape t = true.
Proof.
  intros Hp Hh.
  apply phyrexian_shape in Hp
    as [(a & e & -> & Ha & He) | (a & b & e & -> & Ha & Hb & He)].
  - apply hybrid_shape in Hh
      as [(a' & b' & e' & E & _ & Hb' & _) | (a' & b' & e' & E & _ & Hb' & _)];
      injection E as _ <- _; discriminate Hb'.
  - unfold hybrid_phyrexian_shape. rewrite Ha, Hb.
    destruct He as [-> | ->]; reflexivity.
Qed.

Lemma shape_both_slashed (t : string) :
  hybrid_phyrexian_shape t = true -> phyrexian t = true /\ hybrid t = true.
Proof.
  destruct t as [|a [|s1 [|b [|s2 [|p rest]]]]]; try discriminate.
  unfold hybrid_phyrexian_shape. intros H.
  repeat (apply andb_prop in H as [H ?]).
  repeat match goal with
         | E : Ascii.eqb _ _ = true |- _ => apply Ascii.eqb_eq in E; subst
         end.
  assert (line_end rest) as He.
  { match goal with
    | E : (_ || _)%bool = true |- _ =>
        apply orb_prop in E as [E | E]; apply String.eqb_eq in E;
        [now left | now right]
    end. }
  split.
  - apply phyrexian_shape. right. exists a, b, rest. auto.
  - apply hybrid_shape. right. exists a, b, rest. auto.
Qed.

(** C3, as the code has it.  [phyrexian] and [hybrid] both accept the
    hybrid-Phyrexian symbols [A/B/P], and there exactly two classifiers
    hold; on every other symbol at most one of the seven holds. *)
Theorem classifiers_exclusive_but_hybrid_phyrexian (t : string) :
  if hybrid_phyrexian_shape t
  then holding t = 2%nat /\ phyrexian t = true /\ hybrid t = true
  else (holding t <= 1)%nat.
Proof.
  pose proof (generic_kind t) as Kg. pose proof (variable_kind t) as Kv.
  pose proof (phyrexian_kind t) as Kp. pose proof (hybrid_kind t) as Kh.
  pose proof (twobrid_kind t) as Kt. pose proof (half_kind t) as Kf.
  pose proof (colored_kind t) as Kc.
  pose proof (both_slashed_shape t) as Hboth.
  pose proof (shape_both_slashed t) as Hshape.
  unfold holding, classifiers. simpl.
  destruct (hybrid_phyrexian_shape t).
  - destruct (Hshape eq_refl) as [Hp Hh]. rewrite Hp, Hh in *.
    specialize (Kp eq_refl).
    destruct (generic t); [specialize (Kg eq_refl); congruence |].
    destruct (variable t); [specialize (Kv eq_refl); congruence |].
    destruct (twobrid t); [specialize (Kt eq_refl); congruence |].
    destruct (half t); [specialize (Kf eq_refl); congruence |].
    destruct (colored t); [specialize (Kc eq_refl); congruence |].
    simpl. auto.
  - clear Hshape.
    destruct (generic t), (variable t), (phyrexian t), (hybrid t),
      (twobrid t), (half t), (colored t); simpl;
      try lia;
      try specialize (Kg eq_refl); try specialize (Kv eq_refl);
      try specialize (Kp eq_refl); try specialize (Kh eq_refl);
      try specialize (Kt eq_refl); try specialize (Kf eq_refl);
      try specialize (Kc eq_refl); try specialize (Hboth eq_refl eq_refl);
      congruence.
Qed.

(** C3, as the specification has it, fails: two classifiers hold on the
    symbol [W/U/P]. *)
Lemma classifiers_overlap_on_WUP : ~ (holding "W/U/P" <= 1)%nat.
Proof.
  assert (holding "W/U/P" = 2%nat) as -> by reflexivity. lia.
Qed.

End classifier_kinds.
(** ** Binary64 sums of halves

    A whole number of halves below 2^52 is a float, and the sum of two
    such floats is exact as long as it stays below 2^52. *)

Section float_facts.

Lemma iter_pos_nat {A : Type} (f : A -> A) (p : positive) (x : A) :
  SpecFloat.iter_pos f p x = Nat.iter (Pos.to_nat p) f x.
Proof.
  revert x. induction p as [p IH | p IH |]; intros x; simpl SpecFloat.iter_pos.
  - rewrite !IH, Pos2Nat.inj_xI. simpl Nat.iter.
    replace (Pos.to_nat p + (Pos.to_nat p + 0))%nat
      with (Pos.to_nat p + Pos.to_nat p)%nat by lia.
    rewrite Nat.iter_add, <- Nat.iter_succ_r. simpl.
    rewrite <- Nat.iter_succ_r. reflexivity.
  - rewrite !IH, Pos2Nat.inj_xO.
    replace (2 * Pos.to_nat p)%nat with (Pos.to_nat p + Pos.to_nat p)%nat by lia.
    now rewrite Nat.iter_add.
  - reflexivity.
Qed.















End float_facts.


(** ** Converted mana cost *)

Section converted_cost.

Lemma rstrip_digits (u e : string) :
  all_digits u = true -> line_end e -> str.rstrip (u +:+ e) = u.
Proof.
  intros Hu He. induction u as [|a u IH].
  - rewrite app_empty_l. destruct He as [-> | ->]; reflexivity.
  - simpl in Hu. apply andb_prop in Hu as [Ha Hu].
    rewrite app_cons. simpl. rewrite (IH Hu).
    destruct (digit_facts a Ha) as (_ & _ & _ & _ & ->).
    destruct u; reflexivity.
Qed.

Lemma digits_value_numeral (u : string) (acc : Z) :
  all_digits u = true -> str.digits_value acc u = Some (numeral_from acc u).
Proof.
  revert acc. induction u as [|a u IH]; intros acc Hu; simpl in *.
  - reflexivity.
  - apply andb_prop in Hu as [-> Hu]. now apply IH.
Qed.

Lemma numeral_line_end (u e : string) (acc : Z) :
  all_digits u = true -> line_end e ->
  numeral_from acc (u +:+ e) = numeral_from acc u.
Proof.
  revert acc. induction u as [|a u IH]; intros acc Hu He.
  - rewrite app_empty_l. destruct He as [-> | ->]; reflexivity.
  - simpl in Hu. apply andb_prop in Hu as [Ha Hu].
    rewrite app_cons. simpl. rewrite Ha. now apply IH.
Qed.

(** [int] accepts every generic symbol and returns its numeral. *)
Lemma int_generic (t : string) :
  generic t = true -> str.int t = Ok (numeral t).
Proof.
  intros H. apply generic_shape in H as (d & w & e & -> & Hd & Hw & He).
  assert (all_digits (String d w) = true) as Hdw by (simpl; now rewrite Hd, Hw).
  unfold str.int, str.strip, numeral.
  assert (str.lstrip (String d (w +:+ e)) = String d (w +:+ e)) as ->.
  { simpl. now destruct (digit_facts d Hd) as (_ & _ & _ & _ & ->). }
  change (String d (w +:+ e)) with (String d w +:+ e).
  rewrite (rstrip_digits _ _ Hdw He), (numeral_line_end _ _ _ Hdw He).
  now rewrite (digits_value_numeral _ _ Hdw).
Qed.




(** Every symbol has a line in the table. *)
Lemma contributes_total (symbols : list string) :
  exists cs, Forall2 contributes symbols cs.
Proof.
  induction symbols as [|t symbols [cs IH]]; [exists []; constructor |].
  assert (exists c, contributes t c) as [c Hc].
  { destruct (generic t) eqn:?; [eexists; now apply generic_adds |].
    destruct (variable t) eqn:?; [eexists; now apply variable_adds |].
    destruct (phyrexian t) eqn:?; [eexists; now apply phyrexian_adds |].
    destruct (hybrid t) eqn:?; [eexists; now apply hybrid_adds |].
    destruct (twobrid t) eqn:?; [eexists; now apply twobrid_adds |].
    destruct (half t) eqn:?; [eexists; now apply half_adds |].
    destruct (colored t) eqn:?; [eexists; now apply colored_adds |].
    exists Rejected. apply other_rejected.
    unfold unrecognized, classifiers. repeat constructor; assumption. }
  exists (c :: cs). now constructor.
Qed.

Lemma numeral_from_nonneg (s : string) (acc : Z) :
  (0 <= acc)%Z -> (0 <= numeral_from acc s)%Z.
Proof.
  revert acc. induction s as [|a s IH]; intros acc H; simpl; [assumption |].
  destruct (str.is_digit a); [| assumption]. apply IH. lia.
Qed.








End converted_cost.

(** ** Colours of a cost *)

Section cost_colors.
















End cost_colors.

(** * Further properties *)

(** ** The tokenizer: what it accepts and what it returns *)

Section tokenizer_more.

Lemma re_match_DIGIT (a : ascii) : re_match DIGIT (String a "") = str.is_digit a.
Proof. apply re_facts.match_bare_class. Qed.

Lemma re_match_COLOR (a : ascii) : re_match COLOR (String a "") = is_color a.
Proof. apply re_facts.match_bare_class. Qed.

Lemma re_match_X (a : ascii) :
  re_match X (String a "") = re.in_class a (re.AnyOf "XYZ").
Proof. apply re_facts.match_bare_class. Qed.

Lemma re_match_SLASH (a : ascii) : re_match SLASH (String a "") = Ascii.eqb a "/".
Proof. apply re_facts.match_bare_chr. Qed.

Lemma re_match_MODIFIER (a : ascii) : re_match MODIFIER (String a "") = Ascii.eqb a "P".
Proof. apply re_facts.match_bare_chr. Qed.

Lemma re_match_HALF (a : ascii) : re_match HALF (String a "") = Ascii.eqb a "H".
Proof. apply re_facts.match_bare_chr. Qed.

Lemma parse_body_foreign (st : scanner) (a : ascii) :
  in_alphabet a = false -> mode st <> X -> mode st <> MODIFIER ->
  parse_body st (String a "") = Raise InvalidManaCostException.
Proof.
  unfold in_alphabet. intros H HX HM.
  repeat (apply orb_false_elim in H as [H ?]).
  destruct st as [tmp0 toks m]. simpl in HX, HM.
  destruct m; try congruence; unfold parse_body;
    rewrite ?re_match_DIGIT, ?re_match_COLOR, ?re_match_X, ?re_match_SLASH,
      ?re_match_MODIFIER, ?re_match_HALF;
    repeat match goal with E : _ = false |- _ => rewrite E; clear E end;
    reflexivity.
Qed.

Lemma parse_body_raises (st : scanner) (c : string) (e : exn) :
  parse_body st c = Raise e -> e = InvalidManaCostException.
Proof.
  destruct st as [tmp0 toks m]. intros H.
  destruct m; simpl in H;
    repeat match type of H with
           | (if ?b then _ else _) = _ => destruct b
           end;
    try discriminate; now injection H as <-.
Qed.

Lemma parse_loop_foreign (s : string) (st : scanner) :
  settled st -> all_in_alphabet s = false ->
  for_each parse_body (str.chars s) st = Raise InvalidManaCostException.
Proof.
  revert st. induction s as [|a s IH]; intros st Hst H; simpl in H.
  - discriminate.
  - simpl str.chars. rewrite for_each_cons.
    destruct (parse_body st (String a "")) as [st1|e] eqn:Hbody.
    + rewrite bind_ok.
      destruct (in_alphabet a) eqn:Ha.
      * apply parse_body_consumes in Hbody as [Hst1 _]; [| assumption].
        now apply IH.
      * destruct Hst as (_ & HX & HM).
        rewrite (parse_body_foreign st a Ha HX HM) in Hbody. discriminate.
    + now rewrite (parse_body_raises _ _ _ Hbody).
Qed.

Lemma parse_rejects_foreign_character_aux (s : string) :
  all_in_alphabet (strip_braces s) = false ->
  parse s = Raise InvalidManaCostException.
Proof.
  intros H. unfold parse. rewrite replace_braces.
  rewrite parse_loop_foreign; [reflexivity | | assumption].
  repeat split; simpl; congruence.
Qed.

(** A character that is not a digit, a colour letter, one of X, Y, Z, a
    slash, P or H makes [parse] raise [InvalidManaCostException], wherever
    it stands: white space and lower-case letters are not skipped. *)
Theorem parse_rejects_foreign_character (s : string) :
  all_in_alphabet (strip_braces s) = false ->
  parse s = Raise InvalidManaCostException.
Proof.
  intros H. destruct (parse s) as [symbols|e] eqn:Hparse.
  - rewrite (parse_rejects_foreign_character_aux s H) in Hparse. discriminate.
  - now rewrite (parse_rejects_foreign_character_aux s H) in Hparse.
Qed.

Lemma parse_rejects_foreign_character_witness :
  parse "{2} {W}" = Raise InvalidManaCostException.
Proof. apply (parse_rejects_foreign_character "{2} {W}"). reflexivity. Defined.

Lemma chars_nonempty (s : string) : Forall (fun c => c <> "") (str.chars s).
Proof. induction s; simpl; constructor; [discriminate | assumption]. Qed.

Lemma app_nonempty_r (s c : string) : c <> "" -> s +:+ c <> "".
Proof. intros Hc H. apply app_eq_empty in H as [_ H]. contradiction. Qed.

Lemma parse_body_filled (st st' : scanner) (c : string) :
  filled st -> c <> "" -> parse_body st c = Ok st' -> filled st'.
Proof.
  destruct st as [tmp0 toks m]. unfold filled. simpl. intros [Htmp Htoks] Hc H.
  destruct m; simpl in H;
    repeat match type of H with
           | (if ?b then _ else _) = _ => destruct b
           end;
    try discriminate; injection H as <-; simpl;
    (split; [intros Hm; try (now contradiction Hm); try assumption;
             try (now apply app_nonempty_r) |]);
    repeat (apply Forall_app; split); try assumption;
    try (constructor; [| constructor]); try assumption;
    try (now apply app_nonempty_r); try (apply Htmp; discriminate).
Qed.

Lemma parse_loop_filled (cs : list string) (st st' : scanner) :
  filled st -> Forall (fun c => c <> "") cs ->
  for_each parse_body cs st = Ok st' -> filled st'.
Proof.
  revert st. induction cs as [|c cs IH]; intros st Hst Hcs H; simpl in H.
  - now injection H as <-.
  - inversion Hcs as [|? ? Hc Hcs']; subst.
    destruct (parse_body st c) as [st1|e] eqn:Hbody; [| discriminate].
    apply (IH st1); try assumption.
    now apply (parse_body_filled st st1 c).
Qed.

(** No token [parse] returns is the empty string. *)
Theorem parse_tokens_nonempty (s : string) (symbols : list string) :
  parse s = Ok symbols -> Forall (fun t => t <> "") symbols.
Proof.
  unfold parse. intros H.
  destruct (for_each parse_body _ _) as [st|e] eqn:Hloop; [| discriminate].
  injection H as <-.
  apply parse_loop_filled in Hloop as [_ Htoks].
  - destruct (tmp st) eqn:Ht; simpl; [assumption |].
    apply Forall_app. split; [assumption |]. constructor; [discriminate | constructor].
  - split; simpl; [congruence | constructor].
  - apply chars_nonempty.
Qed.

Lemma parse_tokens_nonempty_witness :
  Forall (fun t => t <> "") ["2"; "W/U"; "X"].
Proof. apply (parse_tokens_nonempty "{2}{W/U}{X}"). reflexivity. Defined.

End tokenizer_more.

(** ** The tokenizer: round trips *)

Lemma color_cases (a : ascii) :
  is_color a = true ->
  In a ["W"; "U"; "R"; "B"; "G"; "C"; "S"]%char.
Proof.
  destruct a as [[] [] [] [] [] [] [] []]; vm_compute; intros H;
    try discriminate H; tauto.
Qed.

Lemma xyz_cases (a : ascii) :
  re.in_class a (re.AnyOf "XYZ") = true -> In a ["X"; "Y"; "Z"]%char.
Proof.
  destruct a as [[] [] [] [] [] [] [] []]; vm_compute; intros H;
    try discriminate H; tauto.
Qed.

Ltac each_color H :=
  apply color_cases in H; simpl in H;
  destruct H as [<- | [<- | [<- | [<- | [<- | [<- | [<- | []]]]]]]].

Ltac each_xyz H :=
  apply xyz_cases in H; simpl in H;
  destruct H as [<- | [<- | [<- | []]]].

Section tokenizer_round_trips.
Import re_facts.

Lemma strip_braces_app (s t : string) :
  strip_braces (s +:+ t) = strip_braces s +:+ strip_braces t.
Proof.
  induction s as [|a s IH]; [reflexivity |].
  rewrite app_cons. simpl.
  destruct (Ascii.eqb a "{" || Ascii.eqb a "}")%bool; [assumption |].
  now rewrite app_cons, IH.
Qed.

Lemma strip_braces_idem (s : string) :
  strip_braces (strip_braces s) = strip_braces s.
Proof.
  induction s as [|a s IH]; [reflexivity |]. simpl.
  destruct (Ascii.eqb a "{" || Ascii.eqb a "}")%bool eqn:E; [assumption |].
  simpl. now rewrite E, IH.
Qed.

(** [parse] reads its argument through the brace-free text only. *)
Lemma parse_same_stripped (s1 s2 : string) :
  strip_braces s1 = strip_braces s2 -> parse s1 = parse s2.
Proof. intros H. unfold parse. now rewrite !replace_braces, H. Qed.

Lemma parse_tokens_join (s : string) (symbols : list string) :
  parse s = Ok symbols -> str.join "" symbols = strip_braces s.
Proof.
  unfold parse. rewrite replace_braces. intros H.
  destruct (for_each parse_body _ _) as [st|e] eqn:Hloop; [| discriminate].
  injection H as <-.
  apply parse_loop_consumes in Hloop as [_ Hc]; [| repeat split; simpl; congruence].
  rewrite join_chars in Hc. unfold consumed in Hc. simpl in Hc.
  rewrite app_empty_l in Hc. rewrite <- Hc.
  destruct (tmp st); simpl; [now rewrite app_empty_r | now rewrite join_snoc].
Qed.

Lemma strip_braces_braced (t : string) : strip_braces (braced t) = strip_braces t.
Proof.
  unfold braced. rewrite !strip_braces_app. simpl.
  now rewrite app_empty_l, app_empty_r.
Qed.

Lemma strip_braces_join_braced (symbols : list string) :
  strip_braces (str.join "" (map braced symbols)) =
  strip_braces (str.join "" symbols).
Proof.
  induction symbols as [|t symbols IH]; [reflexivity |].
  simpl map. rewrite !join_cons, !strip_braces_app, IH.
  now rewrite strip_braces_braced.
Qed.

(** Round trip.  The tokens [parse] returns, written one after the other,
    with or without braces around each, parse back to the same tokens. *)
Theorem parse_reparse (s : string) (symbols : list string) :
  parse s = Ok symbols ->
  parse (str.join "" symbols) = Ok symbols /\
  parse (str.join "" (map braced symbols)) = Ok symbols.
Proof.
  intros H. pose proof (parse_tokens_join _ _ H) as Hjoin.
  rewrite <- H. split; apply parse_same_stripped.
  - now rewrite Hjoin, strip_braces_idem.
  - now rewrite strip_braces_join_braced, Hjoin, strip_braces_idem.
Qed.

Lemma parse_reparse_witness :
  parse (str.join "" ["12"; "W/U/P"; "X"; "HG"]) = Ok ["12"; "W/U/P"; "X"; "HG"] /\
  parse (str.join "" (map braced ["12"; "W/U/P"; "X"; "HG"])) =
    Ok ["12"; "W/U/P"; "X"; "HG"].
Proof. apply (parse_reparse "12W/U/PXHG"). reflexivity. Defined.

Lemma digit_in_alphabet (d : ascii) : str.is_digit d = true -> in_alphabet d = true.
Proof. intros H. unfold in_alphabet. now rewrite H. Qed.

Lemma digits_in_alphabet (w : string) :
  all_digits w = true -> all_in_alphabet w = true.
Proof.
  induction w as [|a w IH]; simpl; [reflexivity |]. intros H.
  apply andb_prop in H as [Ha Hw]. now rewrite (digit_in_alphabet a Ha), IH.
Qed.

Lemma alphabet_no_brace (a : ascii) :
  in_alphabet a = true -> (Ascii.eqb a "{" || Ascii.eqb a "}")%bool = false.
Proof.
  destruct a as [[] [] [] [] [] [] [] []]; vm_compute; intros H;
    try discriminate H; reflexivity.
Qed.

Lemma strip_braces_alphabet (t : string) :
  all_in_alphabet t = true -> strip_braces t = t.
Proof.
  induction t as [|a t IH]; simpl; [reflexivity |]. intros H.
  apply andb_prop in H as [Ha Ht]. now rewrite (alphabet_no_brace a Ha), IH.
Qed.

Lemma parse_loop_digits (w tmp0 : string) (toks : list string) :
  all_digits w = true ->
  for_each parse_body (str.chars w) (Scanner tmp0 toks DIGIT) =
  Ok (Scanner (tmp0 +:+ w) toks DIGIT).
Proof.
  revert tmp0. induction w as [|d w IH]; intros tmp0 H; simpl in H.
  - simpl. now rewrite app_empty_r.
  - apply andb_prop in H as [Hd Hw].
    simpl str.chars. rewrite for_each_cons.
    unfold parse_body. rewrite re_match_DIGIT, Hd, bind_ok, (IH _ Hw).
    now rewrite app_assoc_str, app_cons, app_empty_l.
Qed.

Lemma parse_body_first_digit (d : ascii) :
  str.is_digit d = true ->
  parse_body (Scanner "" [] START) (String d "") = Ok (Scanner (String d "") [] DIGIT).
Proof. intros H. unfold parse_body. now rewrite re_match_DIGIT, H. Qed.

Lemma parse_generic (t : string) :
  generic t = true -> re.chop_newline t = None -> parse t = Ok [t].
Proof.
  intros H Hchop. apply generic_shape in H as (d & w & e & -> & Hd & Hw & He).
  destruct He as [-> | ->].
  2:{ assert (re.chop_newline (String d (w +:+ String LF "")) = Some (String d w))
        as E by now apply chop_newline_spec.
      congruence. }
  rewrite app_empty_r. unfold parse. rewrite replace_braces.
  rewrite strip_braces_alphabet
    by (simpl; now rewrite (digit_in_alphabet d Hd), (digits_in_alphabet w Hw)).
  simpl str.chars. rewrite for_each_cons.
  rewrite (parse_body_first_digit d Hd), bind_ok.
  rewrite (parse_loop_digits _ _ _ Hw), bind_ok. reflexivity.
Qed.

(** A symbol that a classifier accepts (and that does not end in a line
    feed) is one token to [parse], bare or between braces. *)
Theorem parse_classified_symbol (t : string) :
  Exists (fun classifier => classifier t = true) classifiers ->
  re.chop_newline t = None ->
  parse t = Ok [t] /\ parse (braced t) = Ok [t].
Proof.
  intros H Hchop.
  assert (parse t = Ok [t]) as Hparse.
  { unfold classifiers in H.
    repeat match goal with
           | H : Exists _ (_ :: _) |- _ => inversion H; subst; clear H
           | H : Exists _ [] |- _ => inversion H
           end.
    - now apply parse_generic.
    - match goal with H : variable t = true |- _ =>
        apply variable_shape in H as (x & e & -> & Hx & [-> | ->]) end;
        [each_xyz Hx; reflexivity | each_xyz Hx; discriminate Hchop].
    - match goal with H : phyrexian t = true |- _ =>
        apply phyrexian_shape in H
          as [(a & e & -> & Ha & [-> | ->]) | (a & b & e & -> & Ha & Hb & [-> | ->])]
      end;
        try (each_color Ha; discriminate Hchop);
        try (each_color Ha; reflexivity);
        each_color Ha; each_color Hb; reflexivity.
    - match goal with H : hybrid t = true |- _ =>
        apply hybrid_shape in H
          as [(a & b & e & -> & Ha & Hb & [-> | ->])
             | (a & b & e & -> & Ha & Hb & [-> | ->])]
      end;
        try (each_color Ha; each_color Hb; discriminate Hchop);
        each_color Ha; each_color Hb; reflexivity.
    - match goal with H : twobrid t = true |- _ =>
        apply twobrid_shape in H as (a & e & -> & Ha & [-> | ->]) end;
        [each_color Ha; reflexivity | each_color Ha; discriminate Hchop].
    - match goal with H : half t = true |- _ =>
        apply half_shape in H as (a & e & -> & Ha & [-> | ->]) end;
        [each_color Ha; reflexivity | each_color Ha; discriminate Hchop].
    - match goal with H : colored t = true |- _ =>
        apply colored_shape in H as (a & e & -> & Ha & [-> | ->]) end;
        [each_color Ha; reflexivity | each_color Ha; discriminate Hchop]. }
  split; [exact Hparse |].
  rewrite <- Hparse. apply parse_same_stripped, strip_braces_braced.
Qed.

Lemma parse_classified_symbol_witness :
  parse "B/G/P" = Ok ["B/G/P"] /\ parse (braced "B/G/P") = Ok ["B/G/P"].
Proof.
  apply (parse_classified_symbol "B/G/P"); [| reflexivity].
  unfold classifiers. do 2 apply Exists_cons_tl. now apply Exists_cons_hd.
Defined.

End tokenizer_round_trips.

(** ** Variable symbols, cost values, half symbols *)

Section costs_more.
Import re_facts.

Lemma all_in_alphabet_app (s t : string) :
  all_in_alphabet (s +:+ t) = (all_in_alphabet s && all_in_alphabet t)%bool.
Proof.
  induction s as [|a s IH]; [reflexivity |].
  rewrite app_cons. simpl. now rewrite IH, andb_assoc.
Qed.

Lemma all_in_alphabet_join (l : list string) :
  all_in_alphabet (str.join "" l) = true ->
  Forall (fun t => all_in_alphabet t = true) l.
Proof.
  induction l as [|t l IH]; [constructor |].
  rewrite join_cons, all_in_alphabet_app. intros H.
  apply andb_prop in H as [Ht Hl]. constructor; [assumption | now apply IH].
Qed.

(** The tokens [parse] returns are made of the characters it lets through. *)
Lemma parse_tokens_alphabet (s : string) (symbols : list string) :
  parse s = Ok symbols -> Forall (fun t => all_in_alphabet t = true) symbols.
Proof.
  intros H. apply all_in_alphabet_join.
  rewrite (parse_tokens_join _ _ H).
  destruct (all_in_alphabet (strip_braces s)) eqn:E; [reflexivity |].
  rewrite (parse_rejects_foreign_character_aux s E) in H. discriminate.
Qed.

Lemma alphabet_line_end (t e : string) :
  all_in_alphabet (t +:+ e) = true -> line_end e -> e = "".
Proof.
  rewrite all_in_alphabet_app. intros H [-> | ->]; [reflexivity |].
  apply andb_prop in H as [_ H]. discriminate H.
Qed.

Lemma variable_exact (t : string) :
  all_in_alphabet t = true ->
  variable t = (String.eqb t "X" || String.eqb t "Y" || String.eqb t "Z")%bool.
Proof.
  intros Ht. destruct (variable t) eqn:E.
  - apply variable_shape in E as (x & e & -> & Hx & He).
    change (String x e) with (String x "" +:+ e) in Ht.
    rewrite (alphabet_line_end _ _ Ht He). each_xyz Hx; reflexivity.
  - symmetry. apply orb_false_intro; [apply orb_false_intro |];
      apply String.eqb_neq; intros ->; discriminate E.
Qed.

Lemma filter_nonempty_existsb {A : Type} (f : A -> bool) (l : list A) :
  (0 <? length (List.filter f l))%nat = existsb f l.
Proof.
  induction l as [|x l IH]; [reflexivity |]. simpl.
  destruct (f x); [reflexivity | exact IH].
Qed.

Lemma existsb_ext_Forall {A : Type} (f g : A -> bool) (l : list A) :
  Forall (fun x => f x = g x) l -> existsb f l = existsb g l.
Proof. induction 1 as [|x l Hx _ IH]; simpl; [reflexivity | now rewrite Hx, IH]. Qed.

(** [has_x] tells whether one of the tokens is exactly X, Y or Z: a
    variable letter inside a longer token does not count. *)
Theorem has_x_tokens (mana_cost : string) (symbols : list string) :
  parse mana_cost = Ok symbols ->
  has_x mana_cost =
  Ok (existsb (fun t => (String.eqb t "X" || String.eqb t "Y" || String.eqb t "Z")%bool)
              symbols).
Proof.
  intros H. unfold has_x. rewrite H, bind_ok. f_equal.
  rewrite filter_nonempty_existsb. apply existsb_ext_Forall.
  eapply List.Forall_impl; [| exact (parse_tokens_alphabet _ _ H)].
  intros t. apply variable_exact.
Qed.

Lemma has_x_tokens_witness :
  has_x "{2}{X/P}{W}" = Ok false.
Proof. apply (has_x_tokens "{2}{X/P}{W}" ["2"; "X/P"; "W"]). reflexivity. Defined.

Lemma shr_1_nonneg (mrs : shr_record) :
  (0 <= shr_m mrs)%Z -> (0 <= shr_m (shr_1 mrs))%Z.
Proof.
  destruct mrs as [m r s]. simpl shr_m at 1. intros H.
  destruct m as [|[p|p|]|p]; simpl; lia.
Qed.

Lemma shr_nonneg (mrs : shr_record) (e n : Z) :
  (0 <= shr_m mrs)%Z -> (0 <= shr_m (fst (shr mrs e n)))%Z.
Proof.
  intros H. unfold shr. destruct n as [|p|p]; simpl fst; try assumption.
  rewrite iter_pos_nat. induction (Pos.to_nat p) as [|k IH]; [assumption |].
  simpl Nat.iter. now apply shr_1_nonneg.
Qed.

Lemma shr_fexp_nonneg (m e : Z) (l : location) :
  (0 <= m)%Z -> (0 <= shr_m (fst (shr_fexp 53 1024 m e l)))%Z.
Proof.
  intros H. unfold shr_fexp. apply shr_nonneg. now destruct l as [|[]].
Qed.

(** Rounding a mantissa that is not negative gives no negative float, and
    no [nan]. *)
Lemma binary_round_aux_nonnegative (m e : Z) (l : location) :
  (0 <= m)%Z -> float.nonnegative (binary_round_aux 53 1024 false m e l).
Proof.
  intros H. unfold binary_round_aux.
  pose proof (shr_fexp_nonneg m e l H) as H1.
  destruct (shr_fexp 53 1024 m e l) as [mrs' e']. simpl fst in H1.
  assert (0 <= round_nearest_even (shr_m mrs') (loc_of_shr_record mrs'))%Z as H2.
  { unfold round_nearest_even.
    destruct (loc_of_shr_record mrs') as [|[]]; try lia.
    destruct (Z.even (shr_m mrs')); lia. }
  pose proof (shr_fexp_nonneg _ e' loc_Exact H2) as H3.
  destruct (shr_fexp 53 1024 _ e' loc_Exact) as [mrs'' e'']. simpl fst in H3.
  destruct (shr_m mrs'') as [|p|p]; simpl; [exact I | | lia].
  destruct (Z.leb e'' (1024 - 53)); exact I.
Qed.

Lemma nearest_nonnegative (n e : Z) :
  (0 <= n)%Z -> float.nonnegative (float.nearest n e).
Proof.
  intros H. unfold float.nearest, binary_normalize, float.prec, float.emax.
  destruct n as [|p|p]; [exact I | | lia].
  unfold binary_round. destruct (shl_align p e _) as [mz ez].
  now apply binary_round_aux_nonnegative.
Qed.

Lemma add_nonnegative (x y : spec_float) :
  float.nonnegative x -> float.nonnegative y -> float.nonnegative (float.add x y).
Proof.
  intros Hx Hy.
  destruct x as [[]|[]| |[] mx ex]; try exact (False_ind _ Hx);
    destruct y as [[]|[]| |[] my ey]; try exact (False_ind _ Hy); try exact I.
  unfold float.add, SFadd, cond_Zopp.
  rewrite <- Pos2Z.inj_add. apply (nearest_nonnegative (Zpos _)). lia.
Qed.

Lemma cmc_body_nonnegative (total total' : spec_float) (symbol : string) :
  float.nonnegative total -> cmc_body total symbol = Ok total' ->
  float.nonnegative total'.
Proof.
  intros Hpos. unfold cmc_body.
  destruct (generic symbol) eqn:Eg.
  - rewrite (int_generic symbol Eg), bind_ok. unfold float.of_int.
    pose proof (nearest_nonnegative (numeral symbol) 0
                  (numeral_from_nonneg symbol 0 (Z.le_refl 0))) as Hn.
    destruct (float.nearest (numeral symbol) 0) eqn:E; try discriminate;
      simpl; intros H; injection H as <-; apply add_nonnegative; assumption.
  - destruct (twobrid symbol);
      [intros H; injection H as <-; now apply add_nonnegative |].
    destruct (half symbol);
      [intros H; injection H as <-; now apply add_nonnegative |].
    destruct (variable symbol);
      [intros H; injection H as <-; now apply add_nonnegative |].
    destruct (phyrexian symbol || hybrid symbol || colored symbol)%bool;
      [intros H; injection H as <-; now apply add_nonnegative | discriminate].
Qed.

(** A converted cost is never negative and never [nan]: it is 0.0, a
    positive number or [inf]. *)
Theorem cmc_nonnegative (mana_cost : string) (total : spec_float) :
  cmc mana_cost = Ok total -> float.nonnegative total.
Proof.
  unfold cmc. destruct (parse mana_cost) as [symbols|e]; [| discriminate].
  rewrite bind_ok.
  assert (float.nonnegative float.zero) as Hzero by exact I.
  revert Hzero. generalize float.zero. revert total.
  induction symbols as [|t symbols IH]; intros total acc Hacc.
  - simpl. intros H. now injection H as <-.
  - rewrite for_each_cons.
    destruct (cmc_body acc t) as [acc'|e] eqn:Hbody; [| discriminate].
    rewrite bind_ok. apply IH. exact (cmc_body_nonnegative _ _ _ Hacc Hbody).
Qed.

Lemma cmc_nonnegative_witness :
  float.nonnegative (float.nearest 7 (-1)).
Proof. apply (cmc_nonnegative "{HW}{2}{U}"). reflexivity. Defined.

(** A half symbol [HA] has a cost, one half, but no colours:
    [colored_symbols] has no branch for it and raises. *)
Theorem half_symbol_cost_without_colors (a : ascii) :
  is_color a = true ->
  parse (String "H" (String a "")) = Ok [String "H" (String a "")] /\
  cmc (String "H" (String a "")) = Ok float.half /\
  colors [String "H" (String a "")] = Raise InvalidManaCostException.
Proof. intros Ha. each_color Ha; repeat split; reflexivity. Qed.

Lemma half_symbol_cost_without_colors_witness :
  parse "HB" = Ok ["HB"] /\ cmc "HB" = Ok float.half /\
  colors ["HB"] = Raise InvalidManaCostException.
Proof. apply (half_symbol_cost_without_colors "B"). reflexivity. Defined.

Lemma anchored_line_feed (body : re.regex) (t : string) :
  re.match_ (re.Anchored body) t = true -> re.chop_newline t = None ->
  re.match_ (re.Anchored body) (t +:+ String LF "") = true.
Proof.
  intros H Hchop. apply match_anchored in H as (w & Hw & [-> | ->]).
  - apply match_anchored. exists w. auto.
  - assert (re.chop_newline (w +:+ String LF "") = Some w) as E
      by now apply chop_newline_spec.
    congruence.
Qed.

(** The patterns end in [$], which also holds just before a final line
    feed: a symbol that a classifier accepts and that does not end in a
    line feed, it accepts with a line feed added. *)
Theorem classifier_accepts_line_feed (classifier : string -> bool) (t : string) :
  In classifier classifiers -> classifier t = true -> re.chop_newline t = None ->
  classifier (t +:+ String LF "") = true.
Proof.
  unfold classifiers. simpl.
  intros [<- | [<- | [<- | [<- | [<- | [<- | [<- | []]]]]]]];
    apply anchored_line_feed.
Qed.

Lemma classifier_accepts_line_feed_witness :
  colored ("W" +:+ String LF "") = true.
Proof.
  apply (classifier_accepts_line_feed colored "W"); [| reflexivity | reflexivity].
  unfold classifiers. simpl. tauto.
Defined.

End costs_more.

(** ** Colours: order of the symbols, and what the sets can hold *)

Ltac known_letters :=
  simpl;
  repeat (apply List.Forall_cons; [unfold known_symbols; simpl; auto 10 |]);
  apply List.Forall_nil.

Section colors_more.

Lemma body_from_empty (cs : by_need (list string)) (t : string) :
  colored_symbols_body cs t =
  match symbol_colors t with
  | Ok d => Ok (ByNeed (required cs ++ required d) (also cs ++ also d))
  | Raise e => Raise e
  end.
Proof.
  destruct cs as [req als]. unfold symbol_colors, colored_symbols_body. simpl.
  destruct (generic t || variable t)%bool; [now rewrite !app_nil_r |].
  destruct (hybrid t).
  { destruct (pylist.item (str.split "/" t) 0); [| reflexivity].
    destruct (pylist.item (str.split "/" t) 1); [| reflexivity].
    simpl. now rewrite app_nil_r, <- app_assoc. }
  destruct (phyrexian t).
  { destruct (str.first t); [| reflexivity]. simpl. now rewrite app_nil_r. }
  destruct (twobrid t).
  { destruct (pylist.item (str.split "/" t) 1); [| reflexivity].
    simpl. now rewrite app_nil_r. }
  destruct (colored t); [| reflexivity].
  simpl. now rewrite app_nil_r.
Qed.

Lemma loop_from_empty (symbols : list string) (cs : by_need (list string)) :
  for_each colored_symbols_body symbols cs =
  match colored_symbols symbols with
  | Ok d => Ok (ByNeed (required cs ++ required d) (also cs ++ also d))
  | Raise e => Raise e
  end.
Proof.
  unfold colored_symbols. revert cs.
  induction symbols as [|t symbols IH]; intros cs.
  - simpl. destruct cs. now rewrite !app_nil_r.
  - rewrite !for_each_cons, (body_from_empty cs t), (body_from_empty (ByNeed [] []) t).
    destruct (symbol_colors t) as [d|e]; [| reflexivity].
    rewrite !bind_ok, (IH (ByNeed _ _)). simpl.
    rewrite (IH (ByNeed (required d) (also d))).
    destruct (for_each colored_symbols_body symbols (ByNeed [] [])) as [D|e];
      [| reflexivity].
    simpl. now rewrite !app_assoc.
Qed.

Lemma colored_symbols_cons (t : string) (symbols : list string) :
  colored_symbols (t :: symbols) =
  match symbol_colors t with
  | Ok d =>
      match colored_symbols symbols with
      | Ok D => Ok (ByNeed (required d ++ required D) (also d ++ also D))
      | Raise e => Raise e
      end
  | Raise e => Raise e
  end.
Proof.
  unfold colored_symbols at 1. rewrite for_each_cons.
  fold (symbol_colors t). destruct (symbol_colors t) as [d|e]; [| reflexivity].
  rewrite bind_ok. apply loop_from_empty.
Qed.

(** The only exception [colored_symbols] raises is its own: the indexing
    after a successful pattern match never fails. *)
Lemma symbol_colors_raises (t : string) (e : exn) :
  symbol_colors t = Raise e -> e = InvalidManaCostException.
Proof.
  unfold symbol_colors, colored_symbols_body. intros H.
  destruct (generic t || variable t)%bool; [discriminate |].
  destruct (hybrid t) eqn:Eh.
  { apply hybrid_shape in Eh
      as [(a & b & e' & -> & Ha & Hb & [-> | ->])
         | (a & b & e' & -> & Ha & Hb & [-> | ->])];
      each_color Ha; each_color Hb; vm_compute in H; discriminate. }
  destruct (phyrexian t) eqn:Ep.
  { destruct t; [discriminate Ep | discriminate H]. }
  destruct (twobrid t) eqn:Et.
  { apply twobrid_shape in Et as (a & e' & -> & Ha & [-> | ->]);
      each_color Ha; vm_compute in H; discriminate. }
  destruct (colored t); [discriminate |]. now injection H as <-.
Qed.

Lemma same_colors_perm (symbols symbols' : list string) :
  Permutation symbols symbols' ->
  same_colors (colored_symbols symbols) (colored_symbols symbols').
Proof.
  induction 1 as [| x l l' _ IH | x y l | l l' l'' _ IH1 _ IH2].
  - simpl. split; constructor.
  - rewrite !colored_symbols_cons.
    destruct (symbol_colors x) as [d|e]; [| reflexivity].
    unfold same_colors in *.
    destruct (colored_symbols l) as [D|e1], (colored_symbols l') as [D'|e2];
      try contradiction; [| assumption].
    destruct IH as [Hr Ha]. simpl. split; now apply Permutation_app_head.
  - rewrite !colored_symbols_cons.
    destruct (symbol_colors x) as [dx|ex] eqn:Ex, (symbol_colors y) as [dy|ey] eqn:Ey.
    + destruct (colored_symbols l) as [D|e]; [| reflexivity].
      simpl. rewrite !app_assoc. split; apply Permutation_app_tail, Permutation_app_comm.
    + reflexivity.
    + reflexivity.
    + simpl. apply symbol_colors_raises in Ex, Ey. congruence.
  - unfold same_colors in *.
    destruct (colored_symbols l) as [D|e], (colored_symbols l') as [D'|e'],
      (colored_symbols l'') as [D''|e'']; try contradiction; try congruence.
    destruct IH1, IH2. split; etransitivity; eassumption.
Qed.

(** The colours of a cost do not depend on the order of its symbols. *)
Theorem colors_permutation (symbols symbols' : list string) :
  Permutation symbols symbols' -> colors symbols = colors symbols'.
Proof.
  intros H. apply same_colors_perm in H. unfold colors, same_colors in *.
  destruct (colored_symbols symbols) as [D|e], (colored_symbols symbols') as [D'|e'];
    try contradiction; [| congruence].
  destruct H as [Hr Ha]. rewrite !bind_ok. unfold colors_from_colored_symbols.
  f_equal. f_equal; now apply list_to_set_perm_L.
Qed.

Lemma colors_permutation_witness :
  colors ["W"; "2/U"; "G/P"] = colors ["2/U"; "W"; "G/P"].
Proof. apply (colors_permutation ["W"; "2/U"; "G/P"]). apply perm_swap. Defined.

Lemma symbol_colors_letters (t : string) (d : by_need (list string)) :
  all_in_alphabet t = true -> symbol_colors t = Ok d ->
  Forall (fun x => In x known_symbols) (required d ++ also d).
Proof.
  unfold symbol_colors, colored_symbols_body. intros Ht H.
  destruct (generic t || variable t)%bool; [injection H as <-; constructor |].
  destruct (hybrid t) eqn:Eh.
  { apply hybrid_shape in Eh
      as [(a & b & e & -> & Ha & Hb & He) | (a & b & e & -> & Ha & Hb & He)].
    - change (String a (String "/" (String b e)))
        with (String a (String "/" (String b "")) +:+ e) in Ht.
      rewrite (alphabet_line_end _ _ Ht He) in *.
      each_color Ha; each_color Hb; vm_compute in H; injection H as <-;
        known_letters.
    - change (String a (String "/" (String b (String "/" (String "P" e)))))
        with (String a (String "/" (String b "/P")) +:+ e) in Ht.
      rewrite (alphabet_line_end _ _ Ht He) in *.
      each_color Ha; each_color Hb; vm_compute in H; injection H as <-;
        known_letters. }
  destruct (phyrexian t) eqn:Ep.
  { apply phyrexian_shape in Ep
      as [(a & e & -> & Ha & He) | (a & b & e & -> & Ha & Hb & He)];
      each_color Ha; simpl in H; injection H as <-;
        known_letters. }
  destruct (twobrid t) eqn:Et.
  { apply twobrid_shape in Et as (a & e & -> & Ha & He).
    change (String "2" (String "/" (String a e)))
      with (String "2" (String "/" (String a "")) +:+ e) in Ht.
    rewrite (alphabet_line_end _ _ Ht He) in *.
    each_color Ha; vm_compute in H; injection H as <-;
      known_letters. }
  destruct (colored t) eqn:Ec; [| discriminate].
  apply colored_shape in Ec as (a & e & -> & Ha & He).
  change (String a e) with (String a "" +:+ e) in Ht.
  rewrite (alphabet_line_end _ _ Ht He) in *.
  each_color Ha; injection H as <-; known_letters.
Qed.

Lemma colored_symbols_letters (symbols : list string) (D : by_need (list string)) :
  Forall (fun t => all_in_alphabet t = true) symbols ->
  colored_symbols symbols = Ok D ->
  Forall (fun x => In x known_symbols) (required D ++ also D).
Proof.
  intros H. revert D. induction H as [|t symbols Ht _ IH]; intros D HD.
  - injection HD as <-. constructor.
  - rewrite colored_symbols_cons in HD.
    destruct (symbol_colors t) as [d|e] eqn:Ed; [| discriminate].
    destruct (colored_symbols symbols) as [D'|e]; [| discriminate].
    injection HD as <-. simpl.
    pose proof (symbol_colors_letters t d Ht Ed) as Hd.
    specialize (IH D' eq_refl).
    rewrite List.Forall_app in *. destruct Hd, IH.
    split; apply List.Forall_app; split; assumption.
Qed.

(** On the tokens of a parsed cost, [colors] returns colour letters only:
    every member of [required] and of [also] is one of W, U, B, R, G, C, S. *)
Theorem colors_of_parsed_are_letters (mana_cost : string) (symbols : list string)
  (sets : by_need (gset string)) (x : string) :
  parse mana_cost = Ok symbols -> colors symbols = Ok sets ->
  x ∈ required sets ∪ also sets -> In x known_symbols.
Proof.
  intros Hparse Hcolors Hx. unfold colors in Hcolors.
  destruct (colored_symbols symbols) as [D|e] eqn:HD; [| discriminate].
  rewrite bind_ok in Hcolors. injection Hcolors as <-.
  pose proof (colored_symbols_letters symbols D (parse_tokens_alphabet _ _ Hparse) HD)
    as Hletters.
  rewrite List.Forall_forall in Hletters. apply Hletters.
  unfold colors_from_colored_symbols in Hx. simpl in Hx.
  apply elem_of_union in Hx as [Hx | Hx]; apply elem_of_list_to_set in Hx;
    apply list_elem_of_In in Hx; apply in_or_app; auto.
Qed.

Lemma colors_of_parsed_are_letters_witness :
  In "U" known_symbols.
Proof.
  apply (colors_of_parsed_are_letters "{1}{W/U}{G}" ["1"; "W/U"; "G"]
           (ByNeed (list_to_set ["G"]) (list_to_set ["W"; "U"])) "U").
  - reflexivity.
  - reflexivity.
  - set_solver.
Defined.

End colors_more.

(** ** Ordering: unknown symbols, fixed points, and the sort key symbol by symbol *)

Section ordering_more.

Lemma index_absent {A : Type} `{EqDecision A} (l : list A) (x : A) :
  ~ In x l -> pylist.index l x = Raise ValueError.
Proof.
  induction l as [|y l IH]; intros H; simpl; [reflexivity |].
  destruct (decide (y = x)) as [-> | _].
  - exfalso. apply H. now left.
  - rewrite IH; [reflexivity |]. intros Hin. apply H. now right.
Qed.

Lemma index_raises {A : Type} `{EqDecision A} (l : list A) (x : A) (e : exn) :
  pylist.index l x = Raise e -> e = ValueError.
Proof.
  induction l as [|y l IH]; simpl; intros H; [now injection H as <- |].
  destruct (decide (y = x)); [discriminate |].
  destruct (pylist.index l x); [discriminate |].
  apply IH. exact H.
Qed.

Lemma order_score_body_raises (st : Z * Z) (symbol : string) (e : exn) :
  order_score_body wheel st symbol = Raise e -> e = ValueError.
Proof.
  destruct st as [score current]. unfold order_score_body. intros H.
  destruct (pylist.index wheel symbol) eqn:E; [discriminate |].
  injection H as <-. exact (index_raises _ _ _ E).
Qed.

Lemma order_score_loop_unknown (rest : list string) (st : Z * Z) :
  Exists (fun symbol => ~ In symbol wheel) rest ->
  for_each (order_score_body wheel) rest st = Raise ValueError.
Proof.
  intros H. revert st. induction rest as [|x rest IH]; intros st.
  - inversion H.
  - rewrite for_each_cons.
    destruct (order_score_body wheel st x) as [st1|e] eqn:Hbody.
    + rewrite bind_ok. apply IH.
      inversion H as [? ? Hx | ? ? Hrest]; subst; [| assumption].
      exfalso. destruct st as [score current]. unfold order_score_body in Hbody.
      now rewrite (index_absent wheel x Hx) in Hbody.
    + now rewrite (order_score_body_raises _ _ _ Hbody).
Qed.

Lemma unknown_remains (symbols : list string) :
  Exists (fun symbol => ~ In symbol known_symbols) symbols ->
  Exists (fun symbol => ~ In symbol wheel) (without_colorless symbols).
Proof.
  induction 1 as [x l Hx | x l _ IH]; simpl.
  - destruct (String.eqb_spec x "C") as [-> | HC].
    { exfalso. apply Hx. unfold known_symbols. simpl. tauto. }
    destruct (String.eqb_spec x "S") as [-> | HS].
    { exfalso. apply Hx. unfold known_symbols. simpl. tauto. }
    simpl. apply Exists_cons_hd. intros Hin. apply Hx.
    unfold wheel, known_symbols in *. simpl in *. tauto.
  - destruct (negb _); [apply Exists_cons_tl |]; exact IH.
Qed.

Lemma order_score_unknown (symbols : list string) :
  Exists (fun symbol => ~ In symbol known_symbols) symbols ->
  order_score symbols = Raise ValueError.
Proof.
  intros H. apply unknown_remains in H.
  unfold order_score. rewrite filter_colorless.
  destruct (without_colorless symbols) as [|first rest]; [inversion H |].
  destruct (pylist.index wheel first) as [current|e] eqn:Efirst.
  - rewrite bind_ok.
    inversion H as [? ? Hfirst | ? ? Hrest]; subst.
    + now rewrite (index_absent wheel first Hfirst) in Efirst.
    + now rewrite (order_score_loop_unknown rest _ Hrest).
  - now rewrite (index_raises _ _ _ Efirst).
Qed.

(** The first ordering [itertools.permutations] emits is the pool as given. *)
Lemma permutations_head {A : Type} (pool : list A) :
  exists rest, itertools.permutations pool = pool :: rest.
Proof.
  unfold itertools.permutations. induction pool as [|x pool [rest IH]].
  - now exists [].
  - simpl. rewrite IH. simpl. eauto.
Qed.

Lemma order_unknown (symbols : list string) :
  Exists (fun symbol => ~ In symbol known_symbols) symbols ->
  order symbols = Raise ValueError.
Proof.
  intros H. unfold order, builtins.sorted.
  destruct (permutations_head symbols) as [rest ->]. simpl.
  now rewrite (order_score_unknown symbols H).
Qed.

Lemma for_each_app {S A : Type} (body : S -> A -> result S) (l1 l2 : list A) (st : S) :
  for_each body (l1 ++ l2) st = (st' ← for_each body l1 st; for_each body l2 st').
Proof.
  revert st. induction l1 as [|x l1 IH]; intros st; [reflexivity |].
  rewrite <- app_comm_cons, !for_each_cons.
  destruct (body st x); [now rewrite !bind_ok | reflexivity].
Qed.

Lemma enumerate_app {A : Type} (l1 l2 : list A) (start : Z) :
  pylist.enumerate (l1 ++ l2) start =
  pylist.enumerate l1 start ++ pylist.enumerate l2 (start + Z.of_nat (length l1))%Z.
Proof.
  revert start. induction l1 as [|x l1 IH]; intros start; simpl.
  - now rewrite Z.add_0_r.
  - rewrite IH. do 3 f_equal. lia.
Qed.

Lemma sort_score_loop_unknown (l : list string) (start score : Z) :
  Exists (fun symbol => ~ In symbol known_symbols) l ->
  for_each (sort_score_body priorities) (pylist.enumerate l start) score =
  Raise ValueError.
Proof.
  intros H. revert start score. induction l as [|x l IH]; intros start score.
  - inversion H.
  - simpl pylist.enumerate. rewrite for_each_cons.
    cbv beta iota delta [sort_score_body].
    destruct (pylist.index priorities (Some x)) as [p|e] eqn:Ex.
    + rewrite !bind_ok. apply IH.
      inversion H as [? ? Hx | ? ? Hrest]; subst; [| assumption].
      exfalso. rewrite index_absent in Ex; [discriminate |].
      intros Hin. apply Hx. unfold priorities, known_symbols in *. simpl in *.
      repeat (destruct Hin as [Hin | Hin]; [try discriminate Hin; injection Hin as <-; tauto |]).
      contradiction.
    + now rewrite (index_raises _ _ _ Ex).
Qed.

(** A symbol outside W, U, B, R, G, C, S is not skipped: [order_score],
    [order] and [sort_score] all raise [ValueError] on a sequence that
    holds one. *)
Theorem unknown_symbol_raises (symbols : list string) :
  Exists (fun symbol => ~ In symbol known_symbols) symbols ->
  order_score symbols = Raise ValueError /\
  order symbols = Raise ValueError /\
  sort_score symbols = Raise ValueError.
Proof.
  intros H. split; [now apply order_score_unknown |].
  split; [now apply order_unknown |].
  unfold sort_score. apply sort_score_loop_unknown.
  apply List.Exists_exists in H as (x & Hx & Hu).
  apply List.Exists_exists. exists x. split; [now apply in_rev in Hx | exact Hu].
Qed.

Lemma unknown_symbol_raises_witness :
  order_score ["W"; "X"] = Raise ValueError /\
  order ["W"; "X"] = Raise ValueError /\
  sort_score ["W"; "X"] = Raise ValueError.
Proof.
  apply (unknown_symbol_raises ["W"; "X"]).
  apply Exists_cons_tl, Exists_cons_hd.
  unfold known_symbols. simpl. intros H.
  repeat (destruct H as [H | H]; [discriminate H |]). exact H.
Defined.

Lemma known_or_unknown (symbols : list string) :
  Forall (fun symbol => In symbol known_symbols) symbols \/
  Exists (fun symbol => ~ In symbol known_symbols) symbols.
Proof.
  induction symbols as [|x l [IH | IH]].
  - left. constructor.
  - destruct (in_dec string_dec x known_symbols) as [Hx | Hx].
    + left. now constructor.
    + right. now apply Exists_cons_hd.
  - right. now apply Exists_cons_tl.
Qed.

(** What [order] returns is a fixed point: ordering it again changes
    nothing. *)
Theorem order_idempotent (symbols best : list string) :
  order symbols = Ok best -> order best = Ok best.
Proof.
  intros Horder.
  destruct (known_or_unknown symbols) as [Hknown | Hunknown].
  2:{ rewrite (order_unknown symbols Hunknown) in Horder. discriminate. }
  destruct (order_known symbols Hknown)
    as (best0 & before & after & Horder0 & Hsplit & Hb & Ha).
  rewrite Horder in Horder0. injection Horder0 as <-.
  assert (Permutation symbols best) as Hperm.
  { apply permutations_spec. rewrite Hsplit. apply in_elt. }
  assert (Forall (fun symbol => In symbol known_symbols) best) as Hknown'.
  { rewrite List.Forall_forall in *. intros x Hx. apply Hknown.
    now apply (Permutation_in x (Permutation_sym Hperm)). }
  destruct (order_known best Hknown')
    as (best1 & before1 & after1 & Horder1 & Hsplit1 & Hb1 & _).
  rewrite Horder1. f_equal.
  destruct (permutations_head best) as [rest Hhead].
  rewrite Hhead in Hsplit1.
  destruct before1 as [|p before1]; [now injection Hsplit1 as -> _ |].
  exfalso. simpl in Hsplit1. injection Hsplit1 as Hp Hrest.
  inversion Hb1 as [|? ? Hlt _]; subst p.
  assert (In best1 (itertools.permutations symbols)) as Hin.
  { apply permutations_spec. etransitivity; [exact Hperm |].
    apply permutations_spec. rewrite Hhead, Hrest. right. apply in_elt. }
  clear Hhead Hrest.
  rewrite Hsplit in Hin. apply in_app_or in Hin as [Hin | [E | Hin]].
  - rewrite List.Forall_forall in Hb. specialize (Hb _ Hin). lia.
  - subst. lia.
  - rewrite List.Forall_forall in Ha. specialize (Ha _ Hin). lia.
Qed.

Lemma order_idempotent_witness :
  order ["G"; "W"; "U"] = Ok ["G"; "W"; "U"].
Proof. apply (order_idempotent ["U"; "W"; "G"]). reflexivity. Defined.

(** The sort key, symbol by symbol: a symbol put in front adds its index
    in the priority list times ten times the new length; the symbols
    behind it keep their weights. *)
Theorem sort_score_cons (symbol : string) (symbols : list string) :
  sort_score (symbol :: symbols) =
  (score ← sort_score symbols;
   position ← pylist.index priorities (Some symbol);
   Ok (score + position * 10 * (1 + Z.of_nat (length symbols)))%Z).
Proof.
  unfold sort_score. simpl rev.
  rewrite enumerate_app, for_each_app, length_rev.
  destruct (for_each _ (pylist.enumerate (rev symbols) 1) 0%Z) as [score|e];
    [| reflexivity].
  rewrite !bind_ok. simpl pylist.enumerate. rewrite for_each_cons.
  cbv beta iota delta [sort_score_body].
  destruct (pylist.index priorities (Some symbol)); reflexivity.
Qed.

End ordering_more.

(** ** The rows of a card's faces *)

Section faces.

Import multiverse.

Lemma outcome_bind_returns {A B : Type} (a : A) (k : A -> outcome B) :
  (x ← Returns a; k x) = k a.
Proof. reflexivity. Qed.

Lemma for_in_cons {S A : Type} (body : S -> A -> outcome S) (x : A) (xs : list A) (st : S) :
  for_in body (x :: xs) st = (st' ← body st x; for_in body xs st').
Proof. reflexivity. Qed.

Lemma single_face_value_row (p : any) (card_id position : Z) (row : gmap string any) :
  single_face_value p card_id position = Returns row ->
  card_id <> 0%Z /\
  exists name mana_cost cost,
    item p "name" = Returns name /\
    item p "mana_cost" = Returns mana_cost /\
    item p "cmc" = Returns cost /\
    row !! "card_id" = Some (PyInt card_id) /\
    row !! "name" = Some name /\
    row !! "mana_cost" = Some mana_cost /\
    row !! "cmc" = Some cost /\
    row !! "position" = Some (PyInt position).
Proof.
  unfold single_face_value. destruct (Z.eqb_spec card_id 0) as [| Hid]; [discriminate |].
  destruct p as [| | | | | | entries]; try discriminate. simpl.
  destruct (entries !! "name") as [name|]; [| discriminate].
  destruct (entries !! "mana_cost") as [mana_cost|]; [| discriminate].
  destruct (entries !! "cmc") as [cost|]; [| discriminate].
  simpl. intros H. injection H as <-.
  split; [exact Hid |]. exists name, mana_cost, cost.
  repeat split; reflexivity.
Qed.

Lemma faces_body_returns (first_face_cmc : spec_float) (card_id position : Z)
    (face_values : list (gmap string any)) (face : any)
    (st : Z * list (gmap string any)) :
  faces_body first_face_cmc card_id (position, face_values) face = Returns st ->
  card_id <> 0%Z /\
  exists row,
    st = ((position + 1)%Z, face_values ++ [row]) /\
    row_of_face first_face_cmc card_id position face row.
Proof.
  unfold faces_body.
  destruct face as [| | | | | | entries]; try discriminate. simpl.
  destruct (entries !! "mana_cost") as [mana_cost|] eqn:Hcost; [| discriminate].
  simpl.
  destruct (if truthy mana_cost then mana_cmc mana_cost else Returns first_face_cmc)
    as [value|e] eqn:Hvalue; [| discriminate].
  rewrite outcome_bind_returns.
  destruct (single_face_value _ card_id position) as [row|e] eqn:Hrow; [| discriminate].
  intros H. injection H as <-.
  apply single_face_value_row in Hrow
    as (Hid & name & mana_cost' & cost & Hn & Hm & Hc & R1 & R2 & R3 & R4 & R5).
  simpl in Hn, Hm, Hc.
  rewrite lookup_insert_ne in Hn by discriminate.
  rewrite lookup_insert_ne, Hcost in Hm by discriminate.
  rewrite lookup_insert_eq in Hc.
  injection Hm as <-. injection Hc as <-.
  split; [exact Hid |]. exists row. split; [reflexivity |].
  exists name, mana_cost, value. simpl. rewrite Hcost.
  destruct (entries !! "name"); [| discriminate]. injection Hn as ->.
  repeat split; assumption.
Qed.

Lemma for_in_faces (first_face_cmc : spec_float) (card_id : Z) (faces : list any) :
  forall (position : Z) (face_values : list (gmap string any))
         (st : Z * list (gmap string any)),
  for_in (faces_body first_face_cmc card_id) faces (position, face_values) = Returns st ->
  exists rows,
    snd st = face_values ++ rows /\
    length rows = length faces /\
    (faces <> [] -> card_id <> 0%Z) /\
    forall (i : nat) (face : any) (row : gmap string any),
      faces !! i = Some face -> rows !! i = Some row ->
      row_of_face first_face_cmc card_id (position + Z.of_nat i) face row.
Proof.
  induction faces as [|face faces IH]; intros position face_values st.
  - simpl. intros H. injection H as <-. exists []. simpl.
    rewrite app_nil_r. repeat split; try easy.
  - rewrite for_in_cons.
    destruct (faces_body _ _ _ face) as [st1|e] eqn:Hbody; [| discriminate].
    rewrite outcome_bind_returns.
    apply faces_body_returns in Hbody as (Hid & row & -> & Hrow).
    intros Hloop. apply IH in Hloop as (rows & Hst & Hlen & _ & Hrows).
    exists (row :: rows). rewrite Hst, <- app_assoc. simpl.
    split; [reflexivity |]. split; [now rewrite Hlen |]. split; [easy |].
    intros [|i] face' row' Hf Hr; simpl in Hf, Hr.
    + injection Hf as <-. injection Hr as <-. now rewrite Z.add_0_r.
    + replace (position + Z.of_nat (S i))%Z with (position + 1 + Z.of_nat i)%Z by lia.
      now apply Hrows.
Qed.

(** What a call that returns went through: the description is a [dict]
    whose [card_faces] is a list [faces], the first face has a mana cost
    that [mana.cmc] accepts with the cost [first_face_cmc], and the loop
    over [faces] from position 1 returned. *)
Lemma multiple_faces_values_inv (p : any) (card_id : Z) (rows : list (gmap string any)) :
  multiple_faces_values p card_id = Returns rows ->
  exists faces face mana_cost first_face_cmc st,
    get p "card_faces" PyNone = Returns (PyList faces) /\
    head faces = Some face /\
    item face "mana_cost" = Returns mana_cost /\
    mana_cmc mana_cost = Returns first_face_cmc /\
    for_in (faces_body first_face_cmc card_id) faces (1%Z, []) = Returns st /\
    rows = snd st.
Proof.
  unfold multiple_faces_values.
  destruct (get p "card_faces" PyNone) as [card_faces|e] eqn:Hget; [| discriminate].
  rewrite outcome_bind_returns.
  destruct card_faces as [| b | n | x | s | faces | entries]; try discriminate.
  - destruct s as [|a s]; [discriminate |]. simpl. discriminate.
  - destruct faces as [|face faces]; [discriminate |].
    simpl first_item. rewrite outcome_bind_returns.
    destruct (item face "mana_cost") as [mana_cost|e] eqn:Hcost; [| discriminate].
    rewrite outcome_bind_returns.
    destruct (mana_cmc mana_cost) as [first_face_cmc|e] eqn:Hcmc; [| discriminate].
    rewrite outcome_bind_returns. simpl iterate. rewrite outcome_bind_returns.
    destruct (for_in _ _ _) as [st|e] eqn:Hloop; [| discriminate].
    rewrite outcome_bind_returns. intros H. injection H as <-.
    exists (face :: faces), face, mana_cost, first_face_cmc, st.
    repeat split; try assumption.
Qed.

(** [multiple_faces_values] returns only for a card id other than 0 and a
    non-empty list of faces, and then with one row for each face: an
    empty list of faces does not give an empty list of rows. *)
Theorem multiple_faces_values_returns (p : any) (card_id : Z)
    (rows : list (gmap string any)) :
  multiple_faces_values p card_id = Returns rows ->
  card_id <> 0%Z /\
  exists faces,
    get p "card_faces" PyNone = Returns (PyList faces) /\
    faces <> [] /\
    length rows = length faces.
Proof.
  intros H.
  apply multiple_faces_values_inv in H
    as (faces & face & mana_cost & first_face_cmc & st & Hget & Hhead & _ & _ & Hloop & ->).
  destruct st as [position face_values].
  apply for_in_faces in Hloop as (rows & Hst & Hlen & Hid & _).
  simpl in Hst. subst face_values.
  assert (faces <> []) as Hne by (intros ->; discriminate).
  split; [now apply Hid |]. exists faces. repeat split; assumption.
Qed.

Lemma multiple_faces_values_returns_witness :
  7%Z <> 0%Z /\
  exists faces,
    get two_faces "card_faces" PyNone = Returns (PyList faces) /\
    faces <> [] /\
    length two_faces_rows = length faces.
Proof.
  apply (multiple_faces_values_returns two_faces 7 two_faces_rows).
  reflexivity.
Defined.

(** The rows follow the faces: row [i] (from 0) has position [i + 1], the
    card id, the name and the mana cost of face [i], and as [cmc] what
    [mana.cmc] gives for that mana cost, or, for a face without one, what
    it gives for the mana cost of the first face.  An entry [cmc] of the
    face itself is never used. *)
Theorem rows_follow_faces (p : any) (card_id : Z) (rows : list (gmap string any)) :
  multiple_faces_values p card_id = Returns rows ->
  exists faces first_face mana_cost first_face_cmc,
    get p "card_faces" PyNone = Returns (PyList faces) /\
    head faces = Some first_face /\
    item first_face "mana_cost" = Returns mana_cost /\
    mana_cmc mana_cost = Returns first_face_cmc /\
    forall (i : nat) (face : any) (row : gmap string any),
      faces !! i = Some face -> rows !! i = Some row ->
      row_of_face first_face_cmc card_id (Z.of_nat i + 1) face row.
Proof.
  intros H.
  apply multiple_faces_values_inv in H
    as (faces & face & mana_cost & first_face_cmc & st & Hget & Hhead & Hcost & Hcmc
        & Hloop & ->).
  destruct st as [position face_values].
  apply for_in_faces in Hloop as (rows & Hst & _ & _ & Hrows).
  simpl in Hst. subst face_values.
  exists faces, face, mana_cost, first_face_cmc. repeat split; try assumption.
  intros i face' row Hf Hr. rewrite Z.add_comm. now apply Hrows.
Qed.

Lemma rows_follow_faces_witness :
  exists faces first_face mana_cost first_face_cmc,
    get two_faces "card_faces" PyNone = Returns (PyList faces) /\
    head faces = Some first_face /\
    item first_face "mana_cost" = Returns mana_cost /\
    mana_cmc mana_cost = Returns first_face_cmc /\
    forall (i : nat) (face : any) (row : gmap string any),
      faces !! i = Some face -> two_faces_rows !! i = Some row ->
      row_of_face first_face_cmc 7 (Z.of_nat i + 1) face row.
Proof.
  apply (rows_follow_faces two_faces 7 two_faces_rows).
  reflexivity.
Defined.

Lemma single_face_value_total (entries : gmap string any) (card_id position : Z)
    (name mana_cost cost : any) :
  card_id <> 0%Z ->
  entries !! "name" = Some name ->
  entries !! "mana_cost" = Some mana_cost ->
  entries !! "cmc" = Some cost ->
  exists row, single_face_value (PyDict entries) card_id position = Returns row.
Proof.
  intros Hid Hn Hm Hc. unfold single_face_value.
  destruct (Z.eqb_spec card_id 0) as [| _]; [contradiction |].
  simpl. rewrite Hn, Hm, Hc. simpl. eauto.
Qed.

Lemma faces_body_total (first_face_cmc : spec_float) (card_id : Z)
    (st : Z * list (gmap string any)) (face : any) :
  card_id <> 0%Z -> well_formed_face face ->
  exists st', faces_body first_face_cmc card_id st face = Returns st'.
Proof.
  intros Hid (entries & name & mana_cost & total & -> & Hn & Hm & Hc).
  destruct st as [position face_values]. unfold faces_body. simpl.
  rewrite Hm. simpl. rewrite Hc.
  set (value := if str.truthy mana_cost then total else first_face_cmc).
  assert ((if str.truthy mana_cost then Returns total else Returns first_face_cmc)
          = Returns value) as ->
    by (unfold value; destruct (str.truthy mana_cost); reflexivity).
  rewrite outcome_bind_returns.
  destruct (single_face_value_total (<["cmc" := PyFloat value]> entries)
              card_id position name (PyStr mana_cost) (PyFloat value) Hid)
    as [row Hrow].
  - now rewrite lookup_insert_ne by discriminate.
  - now rewrite lookup_insert_ne by discriminate.
  - apply lookup_insert_eq.
  - rewrite Hrow. simpl. eauto.
Qed.

Lemma for_in_total (first_face_cmc : spec_float) (card_id : Z) (faces : list any) :
  card_id <> 0%Z -> Forall well_formed_face faces ->
  forall st, exists st', for_in (faces_body first_face_cmc card_id) faces st = Returns st'.
Proof.
  intros Hid Hfaces. induction Hfaces as [|face faces Hface _ IH]; intros st.
  - simpl. eauto.
  - rewrite for_in_cons.
    destruct (faces_body_total first_face_cmc card_id st face Hid Hface) as [st1 ->].
    rewrite outcome_bind_returns. apply IH.
Qed.

(** For a card id other than 0 and a non-empty list of faces that each
    have a name and a mana cost [mana.cmc] accepts, the call returns, with
    one row for each face. *)
Theorem multiple_faces_values_total (entries : gmap string any) (faces : list any)
    (card_id : Z) :
  entries !! "card_faces" = Some (PyList faces) ->
  faces <> [] ->
  card_id <> 0%Z ->
  Forall well_formed_face faces ->
  exists rows,
    multiple_faces_values (PyDict entries) card_id = Returns rows /\
    length rows = length faces.
Proof.
  intros Hget Hne Hid Hfaces.
  unfold multiple_faces_values. simpl get. rewrite Hget, outcome_bind_returns.
  destruct faces as [|face faces]; [contradiction |].
  simpl first_item. rewrite outcome_bind_returns.
  pose proof (Forall_inv Hfaces) as (e0 & name0 & cost0 & total0 & -> & _ & Hm0 & Hc0).
  simpl item. rewrite Hm0, outcome_bind_returns. simpl mana_cmc. rewrite Hc0.
  rewrite outcome_bind_returns. simpl iterate. rewrite outcome_bind_returns.
  destruct (for_in_total total0 card_id _ Hid Hfaces (1%Z, [])) as [[position rows] Hloop].
  rewrite Hloop, outcome_bind_returns. exists rows. split; [reflexivity |].
  apply for_in_faces in Hloop as (rows' & Hst & Hlen & _).
  simpl in Hst. now subst rows'.
Qed.

Lemma multiple_faces_values_total_witness :
  exists rows,
    multiple_faces_values two_faces 7 = Returns rows /\
    length rows = 2%nat.
Proof.
  apply (multiple_faces_values_total _
           [PyDict (<["mana_cost" := PyStr "{1}{G}"]> (<["name" := PyStr "Front"]> ∅));
            PyDict (<["cmc" := PyInt 9]> (<["mana_cost" := PyStr ""]>
                    (<["name" := PyStr "Back"]> ∅)))] 7).
  - reflexivity.
  - discriminate.
  - discriminate.
  - apply List.Forall_cons.
    + exists (<["mana_cost" := PyStr "{1}{G}"]> (<["name" := PyStr "Front"]> ∅)),
        (PyStr "Front"), "{1}{G}", float.two. repeat split; reflexivity.
    + apply List.Forall_cons; [| apply List.Forall_nil].
      exists (<["cmc" := PyInt 9]> (<["mana_cost" := PyStr ""]>
                (<["name" := PyStr "Back"]> ∅))),
        (PyStr "Back"), "", float.zero. repeat split; reflexivity.
Defined.

(** All or nothing: when [mana.cmc] rejects the mana cost of one face, the
    call raises, and no row is returned for the faces before it. *)
Theorem bad_face_no_rows (p : any) (card_id : Z) (faces : list any) (face : any)
    (mana_cost : string) (e : exn) :
  get p "card_faces" PyNone = Returns (PyList faces) ->
  In face faces ->
  item face "mana_cost" = Returns (PyStr mana_cost) ->
  mana_cost <> "" ->
  cmc mana_cost = Raise e ->
  exists e', multiple_faces_values p card_id = Raises e'.
Proof.
  intros Hget Hin Hcost Hne Hcmc.
  destruct (multiple_faces_values p card_id) as [rows|e'] eqn:Hcall; [| eauto].
  exfalso.
  apply multiple_faces_values_inv in Hcall
    as (faces' & face0 & cost0 & first_face_cmc & st & Hget' & _ & _ & _ & Hloop & ->).
  rewrite Hget in Hget'. injection Hget' as <-.
  destruct st as [position face_values].
  apply for_in_faces in Hloop as (rows & _ & Hlen & _ & Hrows).
  apply list_elem_of_In, list_elem_of_lookup in Hin as [i Hi].
  destruct (lookup_lt_is_Some_2 rows i) as [row Hrow].
  { rewrite Hlen. now apply lookup_lt_Some in Hi. }
  destruct (Hrows i face row Hi Hrow) as (name & cost & value & _ & Hcost' & Hvalue & _).
  rewrite Hcost in Hcost'. injection Hcost' as <-.
  simpl in Hvalue. destruct mana_cost; [contradiction |].
  simpl in Hvalue. rewrite Hcmc in Hvalue. discriminate.
Qed.

Lemma bad_face_no_rows_witness :
  exists e', multiple_faces_values bad_second_face 7 = Raises e'.
Proof.
  apply (bad_face_no_rows bad_second_face 7
           [PyDict (<["mana_cost" := PyStr "{1}{G}"]> (<["name" := PyStr "Front"]> ∅));
            PyDict (<["mana_cost" := PyStr "{Q}"]> (<["name" := PyStr "Back"]> ∅))]
           (PyDict (<["mana_cost" := PyStr "{Q}"]> (<["name" := PyStr "Back"]> ∅)))
           "{Q}" InvalidManaCostException).
  - reflexivity.
  - right. left. reflexivity.
  - reflexivity.
  - discriminate.
  - reflexivity.
Defined.

End faces.
